(** * Fama: console output and a registry of size-bounded log files

    A shallow embedding of [index.js].  The module keeps one process-wide
    [Fama] instance whose [logs] array holds a descriptor per registered log
    file; every method is synchronous except the [rewrite] overflow policy,
    which works through a read stream and a write stream whose handlers run
    after the calling method has returned.

    Modelling conventions.
    - A JavaScript string is a Rocq string, one character per UTF-16 code
      unit: the model covers the strings whose code units are below 256
      (U+0000 to U+00FF), and [s.length] is [JS.length].  A file holds
      bytes, again as a Rocq string, one character per byte.  Node writes
      a string to a file in UTF-8, [Buffer.from]: one byte for a code unit
      below 128, two bytes for any other, so that for ASCII text, and for
      ASCII text only, [s.length] is the number of bytes written.
    - The [data] handler of the rewrite rotation decodes every chunk it
      reads with [chunk.toString()] and encodes what it keeps again.  The
      model hands the bytes through, which is what Node does on a chunk of
      ASCII bytes: the rotation is modelled for log files with ASCII
      content, and its streams are served one rotation at a time.
    - JavaScript numbers are integers in [Z]; all arithmetic of the source
      is exact on integers below 2^53.  The one 32-bit conversion, [x | 0],
      is written out in [JS.to_int32].
    - The [fs] module of Node is modelled by a small file system with hard
      links (names, inodes), because the rewrite policy replaces the log by
      linking a temporary file to its name while a stream still writes to
      that file.
    - What Node and the host decide, and the source does not, is a field of
      [Host]: the working directory, path resolution, the path separator,
      whether [fs.writeFileSync] coerces a missing [data] argument to a
      string (Node before 14) or rejects it (Node 14 and later), and the
      chunk size of a read stream. *)

From Stdlib Require Import ZArith Ascii String DecimalString Lia.
From stdpp Require Import base gmap strings list.

Local Open Scope Z_scope.

(** ** JavaScript strings and numbers *)

Module JS.

(** [s.length]: the number of code units of a string.  On the content
    of a file, which has one character per byte, it is the size of the
    file in bytes. *)
Definition length (s : string) : Z := Z.of_nat (String.length s).

(** [s.replace(/c/g, d)] for a one-character pattern and replacement. *)
Fixpoint replaceAll (c d : ascii) (s : string) : string :=
  match s with
  | EmptyString => EmptyString
  | String a s' =>
      String (if Ascii.eqb a c then d else a) (replaceAll c d s')
  end.

(** [s.split(sep)] for a one-character separator: never empty. *)
Fixpoint split (sep : ascii) (s : string) : list string :=
  match s with
  | EmptyString => [EmptyString]
  | String a s' =>
      if Ascii.eqb a sep then EmptyString :: split sep s'
      else match split sep s' with
           | t :: ts => String a t :: ts
           | [] => [String a EmptyString]
           end
  end.

(** [l.join(sep)] *)
Fixpoint join (sep : string) (l : list string) : string :=
  match l with
  | [] => EmptyString
  | [t] => t
  | t :: ts => t +:+ sep +:+ join sep ts
  end.

(** Position of the last occurrence of [c], if any. *)
Fixpoint last_index (c : ascii) (s : string) : option nat :=
  match s with
  | EmptyString => None
  | String a s' =>
      match last_index c s' with
      | Some i => Some (S i)
      | None => if Ascii.eqb a c then Some 0%nat else None
      end
  end.

(** [s.lastIndexOf(c)]: -1 when [c] does not occur. *)
Definition lastIndexOf (s : string) (c : ascii) : Z :=
  match last_index c s with
  | Some i => Z.of_nat i
  | None => -1
  end.

(** [s.slice(start, stop)]; [stop] is [None] when the argument is left
    out.  A negative index counts from the end of the string. *)
Definition slice (s : string) (start : Z) (stop : option Z) : string :=
  let len := length s in
  let clamp i := if i <? 0 then Z.max (len + i) 0 else Z.min i len in
  let from := clamp start in
  let to := clamp (default len stop) in
  String.substring (Z.to_nat from) (Z.to_nat (Z.max (to - from) 0)) s.

(** String form of an integer number, as in ['a' + n]: its decimal
    digits, which is what JavaScript gives below 10^21. *)
Definition toString (n : Z) : string :=
  NilZero.string_of_int (Z.to_int n).

(** [x | 0] on an integer: reduction to a signed 32-bit integer. *)
Definition to_int32 (x : Z) : Z :=
  (x + 2 ^ 31) mod 2 ^ 32 - 2 ^ 31.

(** [a / b | 0]: the quotient truncated towards zero, then reduced to
    32 bits; an infinite or undefined quotient ([b = 0]) gives 0. *)
Definition div_int32 (a b : Z) : Z :=
  if b =? 0 then 0 else to_int32 (Z.quot a b).

(** Every code unit of [s] is below 128. *)
Fixpoint is_ascii (s : string) : bool :=
  match s with
  | EmptyString => true
  | String a s' => (nat_of_ascii a <? 128)%nat && is_ascii s'
  end.

End JS.

Definition LF : ascii := "010"%char.
Definition ESC : ascii := "027"%char.
Definition chr (c : ascii) : string := String c EmptyString.

(** ** Bytes: the UTF-8 encoding of a string *)

Module Buffer.

(** The bytes of one code unit below 256: itself below 128, and else the
    two bytes [110000xx 10xxxxxx]. *)
Definition encode (c : ascii) : string :=
  let n := nat_of_ascii c in
  if (n <? 128)%nat then chr c
  else String (ascii_of_nat (192 + n / 64))
         (chr (ascii_of_nat (128 + n mod 64))).

(** [Buffer.from(s, 'utf8')]: the bytes Node writes for the string [s]. *)
Fixpoint from (s : string) : string :=
  match s with
  | EmptyString => EmptyString
  | String c s' => encode c +:+ from s'
  end.

(** [Buffer.byteLength(s, 'utf8')] *)
Definition byteLength (s : string) : Z := JS.length (from s).

End Buffer.

(** ** The host: Node and the platform *)

Record Host := {
  (** [process.cwd()] *)
  cwd : string;
  (** the file a path argument of an [fs] call denotes *)
  resolve : string → string;
  (** [path.sep] *)
  sep : ascii;
  (** [fs.writeFileSync] turns a [data] that is not a string into one *)
  coerces_data : bool;
  (** size in bytes of the chunks of an [fs.ReadStream] *)
  highWaterMark : nat
}.

(** ** The file system *)

Inductive exn :=
| ENOENT (p : string)
| EEXIST (p : string)
| ERR_INVALID_ARG_TYPE.

Inductive result (A : Type) :=
| Ok (a : A)
| Throw (e : exn).
Arguments Ok {A} a.
Arguments Throw {A} e.

Record FS := {
  (** directory entries: resolved path to inode *)
  names : gmap string nat;
  (** contents of the inodes *)
  inodes : gmap nat string;
  (** the next inode to allocate *)
  next : nat;
  (** the paths at which a file can be created: the directory exists *)
  creatable : string → bool
}.

Definition set_names (f : FS) (n : gmap string nat) : FS :=
  {| names := n; inodes := inodes f; next := next f;
     creatable := creatable f |}.

Definition set_inode (f : FS) (ino : nat) (c : string) : FS :=
  {| names := names f; inodes := <[ino := c]> (inodes f); next := next f;
     creatable := creatable f |}.

Definition inode_content (f : FS) (ino : nat) : string :=
  default EmptyString (inodes f !! ino).

(** Allocates an inode holding [c] and enters it under the name [rp]. *)
Definition create (f : FS) (rp : string) (c : string) : FS :=
  {| names := <[rp := next f]> (names f);
     inodes := <[next f := c]> (inodes f);
     next := S (next f);
     creatable := creatable f |}.

Section FileSystem.
Variable h : Host.

(** The content of the file that [p] denotes, if there is one. *)
Definition content (f : FS) (p : string) : option string :=
  inode_content f <$> names f !! resolve h p.

Definition existsSync (f : FS) (p : string) : bool :=
  bool_decide (is_Some (names f !! resolve h p)).

Definition statSync_size (f : FS) (p : string) : result Z :=
  match content f p with
  | Some c => Ok (JS.length c)
  | None => Throw (ENOENT p)
  end.

(** Opens [p] for writing with flag [w] (create or truncate to [c]) or
    flag [a] (create or append [c]); gives back the inode. *)
Definition open_write (append : bool) (f : FS) (p : string) (c : string)
  : result (nat * FS) :=
  match names f !! resolve h p with
  | Some ino =>
      Ok (ino, set_inode f ino
                 (if append then inode_content f ino +:+ c else c))
  | None =>
      if creatable f (resolve h p)
      then Ok (next f, create f (resolve h p) c)
      else Throw (ENOENT p)
  end.

(** [fs.writeFileSync(p, data)] with a string, written in UTF-8; [data]
    is [None] when the argument is left out, that is [undefined]. *)
Definition writeFileSync (f : FS) (p : string) (data : option string)
  : result FS :=
  match data with
  | Some d =>
      match open_write false f p (Buffer.from d) with
      | Ok (_, f') => Ok f'
      | Throw e => Throw e
      end
  | None =>
      if coerces_data h then
        match open_write false f p (Buffer.from "undefined") with
        | Ok (_, f') => Ok f'
        | Throw e => Throw e
        end
      else Throw ERR_INVALID_ARG_TYPE
  end.

(** [fs.appendFileSync(p, data)] with a string, written in UTF-8. *)
Definition appendFileSync (f : FS) (p : string) (d : string) : result FS :=
  match open_write true f p (Buffer.from d) with
  | Ok (_, f') => Ok f'
  | Throw e => Throw e
  end.

(** [fs.unlinkSync(p)] *)
Definition unlinkSync (f : FS) (p : string) : result FS :=
  match names f !! resolve h p with
  | Some _ => Ok (set_names f (delete (resolve h p) (names f)))
  | None => Throw (ENOENT p)
  end.

(** [fs.linkSync(existing, new)] *)
Definition linkSync (f : FS) (existing new : string) : result FS :=
  match names f !! resolve h existing with
  | None => Throw (ENOENT existing)
  | Some ino =>
      match names f !! resolve h new with
      | Some _ => Throw (EEXIST new)
      | None =>
          if creatable f (resolve h new)
          then Ok (set_names f (<[resolve h new := ino]> (names f)))
          else Throw (ENOENT new)
      end
  end.

(** A write of the bytes [d] on an open write stream: they go to the end
    of the inode, whatever names it has by then. *)
Definition stream_write (f : FS) (ino : nat) (d : string) : FS :=
  set_inode f ino (inode_content f ino +:+ d).

End FileSystem.

(** ** Log descriptors *)

Module LogFile.
Record t := mk {
  path : string;
  alias : string;
  length : Z;
  maxLength : Z;
  behaviour : string
}.

(** [log.length = n] *)
Definition set_length (log : t) (n : Z) : t :=
  {| path := path log; alias := alias log; length := n;
     maxLength := maxLength log; behaviour := behaviour log |}.

(** The fields that are fixed at registration. *)
Definition fixed (log : t) : string * string * Z * string :=
  (path log, alias log, maxLength log, behaviour log).
End LogFile.

(** ** The state of the process *)

(** A rewrite rotation that has been set up and whose stream handlers have
    not run yet.  The handlers close over the descriptor, of which they
    read the path only, over [text] and over [toDelete]. *)
Record Rotation := {
  rot_path : string;
  rot_text : string;
  rot_toDelete : Z
}.

Record World := {
  fs : FS;
  (** [instance.logs] *)
  logs : list LogFile.t;
  (** what has been written to [process.stdout], oldest first *)
  stdout : list string;
  (** the rotations whose streams are still to be served *)
  pending : list Rotation
}.

Definition set_fs (w : World) (f : FS) : World :=
  {| fs := f; logs := logs w; stdout := stdout w; pending := pending w |}.
Definition set_logs (w : World) (l : list LogFile.t) : World :=
  {| fs := fs w; logs := l; stdout := stdout w; pending := pending w |}.
Definition set_stdout (w : World) (o : list string) : World :=
  {| fs := fs w; logs := logs w; stdout := o; pending := pending w |}.
Definition set_pending (w : World) (p : list Rotation) : World :=
  {| fs := fs w; logs := logs w; stdout := stdout w; pending := p |}.

(** ** Computations: state and exceptions

    A method either returns or throws; what it did to the state before it
    threw stays done. *)

Definition M (A : Type) : Type := World → result A * World.

Global Instance M_ret : MRet M := λ A a w, (Ok a, w).
Global Instance M_bind : MBind M := λ A B k m w,
  match m w with
  | (Ok a, w') => k a w'
  | (Throw e, w') => (Throw e, w')
  end.

Definition gets {A} (f : World → A) : M A := λ w, (Ok (f w), w).
Definition modify (f : World → World) : M unit := λ w, (Ok tt, f w).

(** [try { m }]: the outcome of [m] as a value. *)
Definition try_block {A} (m : M A) : M (result A) := λ w,
  let '(r, w') := m w in (Ok r, w').

(** A synchronous [fs] call that changes the file system. *)
Definition fs_call (op : FS → result FS) : M unit := λ w,
  match op (fs w) with
  | Ok f' => (Ok tt, set_fs w f')
  | Throw e => (Throw e, w)
  end.

(** A synchronous [fs] call that reads the file system. *)
Definition fs_query {A} (op : FS → result A) : M A := λ w,
  match op (fs w) with
  | Ok a => (Ok a, w)
  | Throw e => (Throw e, w)
  end.

Fixpoint foldM {A B} (f : A → B → M A) (a : A) (l : list B) : M A :=
  match l with
  | [] => mret a
  | b :: l' => a' ← f a b; foldM f a' l'
  end.

(** The state a computation leaves, and whether it returned. *)
Definition after {A} (m : M A) (w : World) : World := (m w).2.
Definition returns {A} (m : M A) (w : World) : Prop :=
  ∃ a, (m w).1 = Ok a.

(** ** Streams *)

(** The first [n] bytes of [s], and the rest. *)
Fixpoint bytes_take (n : nat) (s : string) : string :=
  match n, s with
  | S n', String a s' => String a (bytes_take n' s')
  | _, _ => EmptyString
  end.

Fixpoint bytes_drop (n : nat) (s : string) : string :=
  match n, s with
  | S n', String _ s' => bytes_drop n' s'
  | _, _ => s
  end.

(** The chunks in which a read stream delivers a file of content [s]:
    [k] bytes each, the last one possibly shorter. *)
Fixpoint chunks_from (k : nat) (fuel : nat) (s : string) : list string :=
  match fuel, s with
  | S fuel', String _ _ =>
      bytes_take k s :: chunks_from k fuel' (bytes_drop k s)
  | _, _ => []
  end.

Definition chunks (k : nat) (s : string) : list string :=
  chunks_from k (String.length s) s.

(** The loop of the [data] handler over the lines of the chunk that
    holds the cut: [texts] is what is left of them from index [i] on.
    Gives [toDelete] as the loop leaves it and what the loop writes. *)
Fixpoint trim_lines (toDelete : Z) (texts : list string)
  : Z * option string :=
  match texts with
  | [] => (toDelete, None)
  | t :: rest =>
      let toDelete := toDelete - JS.length t in
      if (toDelete <=? 0) && negb (bool_decide (rest = []))
      then (toDelete, Some (JS.join (chr LF) rest))
      else trim_lines toDelete rest
  end.

(** ** The Fama class and the overflow handler *)

Section Fama.
Variable h : Host.

(** [const projectDir = process.cwd() + '\\'] *)
Definition projectDir : string := cwd h +:+ "\".

(** *** Console *)

Definition write (s : string) : M unit :=
  modify (λ w, set_stdout w (stdout w ++ [s])).

Definition print (output : string) : M unit := write output.

Definition tagged (colour tag message : string) : string :=
  chr ESC +:+ colour +:+ tag +:+ chr ESC +:+ "[0m " +:+ message
    +:+ chr LF.

Definition warn (message : string) : M unit :=
  write (tagged "[33m" "WARNING" message).
Definition error (message : string) : M unit :=
  write (tagged "[31m" "ERROR" message).
Definition debug (message : string) : M unit :=
  write (tagged "[32m" "DEBUG" message).
Definition info (message : string) : M unit :=
  write (tagged "[36m" "INFO" message).

(** *** Registry *)

(** The test of [addLog] on [behaviour]: the values that are kept. *)
Definition accepted (behaviour : string) : bool :=
  negb (negb (String.eqb behaviour "stop")
        && negb (String.eqb behaviour "ingore")
        && negb (String.eqb behaviour "split")
        && negb (String.eqb behaviour "rewrite")
        && negb (String.eqb behaviour "continue")).

(** [addLog(file, alias, maxLength = 5000, behaviour = 'stop')]; an
    argument that is left out is [None]. *)
Definition addLog (file alias : string) (maxLength : option Z)
    (behaviour : option string) : M unit :=
  let maxLength := default 5000 maxLength in
  let behaviour := default "stop" behaviour in
  let file := JS.replaceAll "/" "\" file in
  attempt ← try_block (
    there ← gets (λ w, existsSync h (fs w) (projectDir +:+ file));
    if negb there
    then fs_call (λ f, writeFileSync h f file None);; mret 0
    else fs_query (λ f, statSync_size h f (projectDir +:+ file)));
  match attempt with
  | Throw _ =>
      error ("Fama couldn't create a file " +:+ projectDir +:+ file)
  | Ok length =>
      behaviour ←
        (if accepted behaviour then mret behaviour
         else warn ("'" +:+ behaviour +:+
                    "' is not valid behaviour type. Defaulting to stop.");;
              mret "stop");
      modify (λ w, set_logs w (logs w ++
        [ {| LogFile.path := file; LogFile.alias := alias;
             LogFile.length := length; LogFile.maxLength := maxLength;
             LogFile.behaviour := behaviour |} ]))
  end.

(** [this.logs.find(log => log.alias === alias)], with the position of
    the descriptor, which stands for the reference to it. *)
Definition find (alias : string) (w : World) : option (nat * LogFile.t) :=
  list_find (λ log, LogFile.alias log = alias) (logs w).

(** [log.length = n] on the descriptor at position [i]. *)
Definition assign_length (i : nat) (log : LogFile.t) (n : Z) : M unit :=
  modify (λ w, set_logs w (<[i := LogFile.set_length log n]> (logs w))).

Definition writeLog (alias text : string) : M unit :=
  found ← gets (find alias);
  match found with
  | None =>
      error ("Couldn't write to a log file with alias " +:+ alias +:+
             ", log file was not found")
  | Some (i, log) =>
      fs_call (λ f, writeFileSync h f (LogFile.path log) (Some text));;
      assign_length i log (JS.length text)
  end.

(** *** Overflow *)

(** The index of the file that the split policy writes to:
    [((log.length + text.length) / log.maxLength | 0) + 1]. *)
Definition fileIndex (log : LogFile.t) (text : string) : Z :=
  JS.div_int32 (LogFile.length log + JS.length text)
               (LogFile.maxLength log) + 1.

(** The name of that file. *)
Definition nextFilePath (log : LogFile.t) (text : string) : string :=
  let fileExtensionIndex := JS.lastIndexOf (LogFile.path log) "." in
  JS.slice (LogFile.path log) 0 (Some fileExtensionIndex)
    +:+ JS.toString (fileIndex log text)
    +:+ JS.slice (LogFile.path log) fileExtensionIndex None.

(** [overflow(log, text)]; [i] is the position of [log] in the registry.
    The rewrite case only creates the streams and registers their
    handlers: it leaves a pending rotation. *)
Definition overflow (i : nat) (log : LogFile.t) (text : string) : M unit :=
  if String.eqb (LogFile.behaviour log) "stop" then
    info ("The " +:+ LogFile.alias log +:+
          " log file has reached its maximum size")
  else if String.eqb (LogFile.behaviour log) "rewrite" then
    modify (λ w, set_pending w (pending w ++
      [ {| rot_path := LogFile.path log; rot_text := text;
           rot_toDelete :=
             (LogFile.length log + JS.length text)
               - LogFile.maxLength log |} ]))
  else if String.eqb (LogFile.behaviour log) "split" then
    fs_call (λ f, appendFileSync h f (nextFilePath log text) text);;
    assign_length i log (LogFile.length log + JS.length text)
  else if String.eqb (LogFile.behaviour log) "continue" then
    fs_call (λ f, appendFileSync h f (LogFile.path log) text);;
    assign_length i log (LogFile.length log + JS.length text)
  else mret tt.

Definition appendLog (alias text : string) : M unit :=
  found ← gets (find alias);
  match found with
  | None =>
      error ("Couldn't append to a log file with alias " +:+ alias +:+
             ", log file was not found")
  | Some (i, log) =>
      if LogFile.length log + JS.length text >? LogFile.maxLength log
      then overflow i log text
      else
        fs_call (λ f, appendFileSync h f (LogFile.path log) text);;
        assign_length i log (LogFile.length log + JS.length text)
  end.

Definition appendLineLog (alias text : string) : M unit :=
  appendLog alias (text +:+ chr LF).

Definition clearLog (alias : string) : M unit :=
  found ← gets (find alias);
  match found with
  | None =>
      error ("Couldn't clear a log file with alias " +:+ alias +:+
             ", log file was not found")
  | Some (i, log) =>
      fs_call (λ f, writeFileSync h f (LogFile.path log) (Some ""));;
      assign_length i log 0
  end.

Definition removeLog (alias : string) : M unit :=
  found ← gets (find alias);
  match found with
  | None =>
      error ("Couldn't delete a log file with alias " +:+ alias +:+
             ", log file was not found")
  | Some (index, log) =>
      fs_call (λ f, unlinkSync h f (LogFile.path log));;
      modify (λ w, set_logs w (delete index (logs w)))
  end.

(** *** The rewrite rotation, when its streams are served *)

(** The [data] handler of the read stream.  Its state is the pair of
    the closure variables [toDelete] and [pass]; [fd] is the inode the
    write stream has open.  With [pass] set the chunk goes to the write
    stream as the bytes it is.  Otherwise [text] is [chunk.toString()]
    and what is kept of it is written as a string: on a chunk of ASCII
    bytes, which is what this handler is modelled for, both conversions
    leave the bytes as they are. *)
Definition on_data (fd : nat) (st : Z * bool) (chunk : string)
  : M (Z * bool) :=
  let '(toDelete, pass) := st in
  if pass then
    modify (λ w, set_fs w (stream_write (fs w) fd chunk));;
    mret (toDelete, pass)
  else
    let text := chunk in
    if toDelete >? JS.length text then
      mret (toDelete - JS.length text, pass)
    else
      let texts := JS.split LF text in
      let '(toDelete, written) := trim_lines toDelete texts in
      match written with
      | Some s => modify (λ w, set_fs w (stream_write (fs w) fd s))
      | None => mret tt
      end;;
      mret (toDelete, true).

(** The [close] handler of the read stream. *)
Definition on_close (fd : nat) (r : Rotation) : M unit :=
  fs_call (λ f, unlinkSync h f (rot_path r));;
  fs_call (λ f, linkSync h f (rot_path r +:+ ".temp") (rot_path r));;
  fs_call (λ f, unlinkSync h f (rot_path r +:+ ".temp"));;
  modify (λ w,
    set_fs w (stream_write (fs w) fd (Buffer.from (rot_text r)))).

(** One rotation from the opening of its streams to the end of the
    write stream.  Both streams are opened, the read stream on the log
    file and the write stream on the temporary file, which it creates or
    truncates; a log file that is not there is reported once both have
    been tried, so that the temporary file is left behind.  A failure
    here is an exception outside any method. *)
Definition rotate (r : Rotation) : M unit :=
  source ← gets (λ w, content h (fs w) (rot_path r));
  fd ← (λ w,
    match open_write h false (fs w) (rot_path r +:+ ".temp") "" with
    | Ok (ino, f') => (Ok ino, set_fs w f')
    | Throw e => (Throw e, w)
    end);
  match source with
  | None => λ w, (Throw (ENOENT (rot_path r)), w)
  | Some old =>
      foldM (on_data fd) (rot_toDelete r, false)
            (chunks (highWaterMark h) old);;
      on_close fd r
  end.

(** The event loop serves the oldest pending rotation, from the opening
    of its streams to its last write. *)
Definition serve : M unit :=
  queue ← gets pending;
  match queue with
  | [] => mret tt
  | r :: rest => modify (λ w, set_pending w rest);; rotate r
  end.

End Fama.

(** ** Concrete hosts and states, for running the model *)

(** A Windows host.  A path that already starts with the working
    directory is absolute; any other is taken relative to it. *)
Definition windows (legacy_node : bool) : Host :=
  {| cwd := "C:\app";
     resolve := λ p,
       if String.prefix "C:\app\" p then p else "C:\app\" +:+ p;
     sep := "\";
     coerces_data := legacy_node;
     highWaterMark := 64 * 1024 |}.

(** A POSIX host, where [\] is an ordinary character of a file name. *)
Definition posix (legacy_node : bool) : Host :=
  {| cwd := "/app";
     resolve := λ p,
       if String.prefix "/" p then p else "/app/" +:+ p;
     sep := "/";
     coerces_data := legacy_node;
     highWaterMark := 64 * 1024 |}.

(** A disk that holds the files [files] (resolved path, content) and on
    which any file can be created. *)
Fixpoint disk (files : list (string * string)) : FS :=
  match files with
  | [] => {| names := ∅; inodes := ∅; next := 0; creatable := λ _, true |}
  | (p, c) :: rest => create (disk rest) p c
  end.

(** The process right after [require('fama')]. *)
Definition boot (f : FS) : World :=
  {| fs := f; logs := []; stdout := []; pending := [] |}.

(** A disk with an empty [log.txt] in the working directory of the
    Windows host. *)
Definition empty_log : FS := disk [("C:\app\log.txt", "")].

(** A registry with one descriptor over a disk with its file. *)
Definition one_log (behaviour : string) (body : string) (maxLength : Z)
  : World :=
  set_logs (boot (disk [("C:\app\app.log", body)]))
    [LogFile.mk "app.log" "app" (JS.length body) maxLength behaviour].

(** The text made of the lines [l], each ended by a line feed. *)
Definition lines (l : list string) : string :=
  foldr (λ t rest, t +:+ chr LF +:+ rest) EmptyString l.

(** The string of the one character U+00E9, [e] with an acute accent. *)
Definition e_acute : string := chr "233"%char.

(** [n] times the character [c]. *)
Fixpoint replicate_char (n : nat) (c : ascii) : string :=
  match n with
  | O => EmptyString
  | S n' => String c (replicate_char n' c)
  end.

(** ** Values and the formatter *)

(** The values [format] tells apart by [typeof].  A number is
    integer-valued, below 10^21 in absolute value; an object is plain
    data, with its own enumerable string keys in the order in which they
    are enumerated, and the prototypes are the built-in ones.  Being
    trees, these values have no cycles: an array or an object that holds
    itself, on which [JSON.stringify] throws, is not among them.  A
    function is its name only, it cannot be called: what
    [JSON.stringify] makes of an object with a [toJSON] method is not
    modelled. *)
Unset Elimination Schemes.
Inductive value :=
| Null
| Undefined
| Bool (b : bool)
| Num (n : Z)
| BigInt (n : Z)
| Str (s : string)
| Func (name : string)
| Sym (description : option string)
| Arr (items : list value)
| Obj (props : list (string * value)).
Set Elimination Schemes.

Definition DQ : ascii := "034"%char.

Module JSON.

Definition hex_digit (n : nat) : string :=
  String.substring n 1 "0123456789abcdef".

(** One code unit of a quoted string. *)
Definition quote_char (c : ascii) : string :=
  if Ascii.eqb c "008" then "\b"
  else if Ascii.eqb c "009" then "\t"
  else if Ascii.eqb c "010" then "\n"
  else if Ascii.eqb c "012" then "\f"
  else if Ascii.eqb c "013" then "\r"
  else if Ascii.eqb c DQ then "\" +:+ chr DQ
  else if Ascii.eqb c "\" then "\\"
  else if (nat_of_ascii c <? 32)%nat then
    "\u00" +:+ hex_digit (nat_of_ascii c / 16)
           +:+ hex_digit (nat_of_ascii c mod 16)
  else chr c.

Fixpoint quote_chars (s : string) : string :=
  match s with
  | EmptyString => EmptyString
  | String c s' => quote_char c +:+ quote_chars s'
  end.

(** [QuoteJSONString] *)
Definition quote (s : string) : string :=
  chr DQ +:+ quote_chars s +:+ chr DQ.

(** The text of an array or an object from the texts of its parts. *)
Definition wrap (opening closing gap indent stepback : string)
    (partial : list string) : string :=
  match partial with
  | [] => opening +:+ closing
  | _ =>
      if String.eqb gap ""
      then opening +:+ JS.join "," partial +:+ closing
      else opening +:+ chr LF +:+ indent
             +:+ JS.join ("," +:+ chr LF +:+ indent) partial
             +:+ chr LF +:+ stepback +:+ closing
  end.

(** [SerializeJSONProperty] on a value, with the gap and the current
    indentation.  The outer [None] is the [TypeError] for a [BigInt];
    the inner [None] is [undefined]: the value has no JSON text. *)
Fixpoint serialize (gap indent : string) (v : value)
  : option (option string) :=
  match v with
  | Null => Some (Some "null")
  | Undefined | Func _ | Sym _ => Some None
  | Bool b => Some (Some (if b then "true" else "false"))
  | Num n => Some (Some (JS.toString n))
  | BigInt _ => None
  | Str s => Some (Some (quote s))
  | Arr items =>
      let stepback := indent in
      let indent := indent +:+ gap in
      partial ←
        (fix elements (l : list value) : option (list string) :=
           match l with
           | [] => Some []
           | x :: l' =>
               strP ← serialize gap indent x;
               rest ← elements l';
               Some (default "null" strP :: rest)
           end) items;
      Some (Some (wrap "[" "]" gap indent stepback partial))
  | Obj props =>
      let stepback := indent in
      let indent := indent +:+ gap in
      partial ←
        (fix members (l : list (string * value)) : option (list string) :=
           match l with
           | [] => Some []
           | (k, x) :: l' =>
               strP ← serialize gap indent x;
               rest ← members l';
               Some (match strP with
                     | Some s =>
                         (quote k +:+ ":"
                            +:+ (if String.eqb gap "" then "" else " ")
                            +:+ s) :: rest
                     | None => rest
                     end)
           end) props;
      Some (Some (wrap "{" "}" gap indent stepback partial))
  end.

(** [JSON.stringify(v, null, space)] with [space] the number 4
    ([Some 4]) or [null] ([None]). *)
Definition stringify (v : value) (space : option nat)
  : option (option string) :=
  let gap := match space with
             | Some n => replicate_char (Nat.min n 10) " "
             | None => EmptyString
             end in
  serialize gap EmptyString v.

End JSON.

(** [const end = '\x1b[0m\n'] *)
Definition end_ : string := chr ESC +:+ "[0m" +:+ chr LF.

(** [format(any)].  [None]: [JSON.stringify] threw a [TypeError]. *)
Definition format (any : value) : option string :=
  match any with
  | Null => Some (chr ESC +:+ "[35mnull" +:+ end_)
  | Str s => Some (s +:+ chr LF)
  | Num n | BigInt n => Some (chr ESC +:+ "[33m" +:+ JS.toString n +:+ end_)
  | Undefined => Some (chr ESC +:+ "[35mundefined" +:+ end_)
  | Bool b =>
      Some (chr ESC +:+ "[34m" +:+ (if b then "true" else "false") +:+ end_)
  | Func name => Some ("[function " +:+ chr ESC +:+ "[34m" +:+ name +:+ end_)
  | Arr _ =>
      text ← JSON.stringify any None;
      Some (default "undefined" text +:+ chr LF)
  | Obj _ =>
      text ← JSON.stringify any (Some 4%nat);
      Some (default "undefined" text +:+ chr LF)
  | Sym description =>
      Some ("[symbol " +:+ chr ESC +:+ "[32m"
              +:+ default "undefined" description +:+ end_)
  end.

(** [printf(output)]: [format], then one write to standard output.
    [None]: [format] threw, and nothing is written. *)
Definition printf (output : value) : option (M unit) :=
  write <$> format output.

(** * The vocabulary of the properties *)

(** [w'] is [w] with one more line on standard output and nothing else
    changed. *)
Definition only_prints (line : string) (w w' : World) : Prop :=
  fs w' = fs w ∧ logs w' = logs w ∧ pending w' = pending w ∧
  stdout w' = stdout w ++ [line].

Definition error_report (line : string) : Prop :=
  ∃ message, line = tagged "[31m" "ERROR" message.


(** Some descriptor of the registry has the alias. *)
Definition registered (alias : string) (w : World) : Prop :=
  ∃ log, log ∈ logs w ∧ LogFile.alias log = alias.

(** What a method does when its alias resolves to no descriptor: it
    returns, having printed one error report and done nothing else. *)
Definition reports_error (m : M unit) (w : World) : Prop :=
  ∃ line, error_report line ∧ (m w).1 = Ok tt ∧ only_prints line w (m w).2.

(** [p] can be opened for appending: the file is there or can be
    created. *)
Definition appendable (h : Host) (f : FS) (p : string) : Prop :=
  is_Some (names f !! resolve h p) ∨ creatable f (resolve h p) = true.

(** [m] run from [w] keeps the registry's descriptors, position by
    position, up to their tracked length. *)
Definition frames_registry (m : M unit) (w : World) : Prop :=
  LogFile.fixed <$> logs (after m w) = LogFile.fixed <$> logs w.

(** The descriptor that [addLog] pushes once the file is in place. *)
Definition descriptor (file alias : string) (length : Z)
    (maxLength : option Z) (behaviour : option string) : LogFile.t :=
  let b := default "stop" behaviour in
  {| LogFile.path := JS.replaceAll "/" "\" file;
     LogFile.alias := alias;
     LogFile.length := length;
     LogFile.maxLength := default 5000 maxLength;
     LogFile.behaviour := if accepted b then b else "stop" |}.

(** The warning of [addLog], if [behaviour] calls for one. *)
Definition warning (behaviour : option string) : list string :=
  let b := default "stop" behaviour in
  if accepted b then []
  else [tagged "[33m" "WARNING"
          ("'" +:+ b +:+
           "' is not valid behaviour type. Defaulting to stop.")].

(** The file that [addLog] looks for. *)
Definition target (h : Host) (file : string) : string :=
  projectDir h +:+ JS.replaceAll "/" "\" file.

(** The words of the specification on paths: every separator, [/] or
    [\], becomes the separator of the host. *)
Definition normalize_separators (host_sep : ascii) (p : string) : string :=
  JS.replaceAll "\" host_sep (JS.replaceAll "/" host_sep p).

(** The tracked length of the descriptor registered under [alias]. *)
Definition tracked (alias : string) (w : World) : option Z :=
  (λ found, LogFile.length found.2) <$> find alias w.

(** The size of the file that [p] denotes. *)
Definition size (h : Host) (w : World) (p : string) : option Z :=
  JS.length <$> content h (fs w) p.


(** The chunks of a stream, put together again. *)
Definition flatten (l : list string) : string :=
  foldr String.append EmptyString l.

(** The bytes of the lines [l], line feeds not counted: what the loop of
    the [data] handler takes off [toDelete]. *)
Definition total (l : list string) : Z :=
  foldr (λ t n, JS.length t + n) 0 l.

Definition ends_with (c : ascii) (s : string) : Prop :=
  ∃ s', s = s' +:+ chr c.

(** What the [data] handler writes to the write stream over the chunks
    [l], from the closure state [toDelete], [pass]. *)
Fixpoint written (toDelete : Z) (pass : bool) (l : list string) : string :=
  match l with
  | [] => EmptyString
  | chunk :: rest =>
      if pass then chunk +:+ written toDelete pass rest
      else if toDelete >? JS.length chunk
      then written (toDelete - JS.length chunk) pass rest
      else
        let '(toDelete, out) := trim_lines toDelete (JS.split LF chunk) in
        default EmptyString out +:+ written toDelete true rest
  end.

(** [w'] is [w] after the bytes [data] went through the write stream on
    the inode [fd]. *)
Definition wrote (fd : nat) (data : string) (w w' : World) : Prop :=
  names (fs w') = names (fs w) ∧
  creatable (fs w') = creatable (fs w) ∧
  inode_content (fs w') fd = inode_content (fs w) fd +:+ data ∧
  logs w' = logs w ∧ stdout w' = stdout w ∧ pending w' = pending w.

(** The tracked length of the log registered under [alias] is the size of
    its file. *)
Definition in_sync (h : Host) (alias : string) (w : World) : Prop :=
  ∃ i log body,
    find alias w = Some (i, log) ∧
    content h (fs w) (LogFile.path log) = Some body ∧
    LogFile.length log = JS.length body.

(** The descriptor at position [i] is the only one registered under
    [alias]. *)
Definition sole (alias : string) (i : nat) (w : World) : Prop :=
  ∀ j log, logs w !! j = Some log → LogFile.alias log = alias → j = i.

(** Every inode that has a name has been allocated. *)
Definition allocated (f : FS) : Prop :=
  ∀ p ino, names f !! p = Some ino → (ino < next f)%nat.

(** [c] occurs in [s]. *)
Fixpoint occurs (c : ascii) (s : string) : bool :=
  match s with
  | EmptyString => false
  | String a s' => Ascii.eqb a c || occurs c s'
  end.




(** * Properties *)

Ltac unfold_M :=
  unfold gets, modify, try_block, fs_call, fs_query, write, error, warn,
    info, assign_length, after, returns;
  unfold mbind, M_bind, mret, M_ret.

(** ** Numbers and strings *)

Lemma gtb_false (a b : Z) : a ≤ b → (a >? b) = false.
Proof. intros. rewrite Z.gtb_ltb. apply Z.ltb_ge. lia. Qed.

Lemma gtb_true (a b : Z) : a > b → (a >? b) = true.
Proof. intros. rewrite Z.gtb_ltb. apply Z.ltb_lt. lia. Qed.


Section Bytes.

Lemma app_cons (a : ascii) (s t : string) :
  String a s +:+ t = String a (s +:+ t).
Proof. reflexivity. Qed.

Lemma app_empty_r (s : string) : s +:+ EmptyString = s.
Proof. induction s as [|a s IH]; [done | by rewrite app_cons, IH]. Qed.

Lemma app_assoc_s (s t u : string) : (s +:+ t) +:+ u = s +:+ t +:+ u.
Proof. induction s as [|a s IH]; [done | by rewrite !app_cons, IH]. Qed.

Lemma length_app (s t : string) :
  String.length (s +:+ t) = (String.length s + String.length t)%nat.
Proof. induction s as [|a s IH]; simpl; [done | by rewrite IH]. Qed.

Lemma JS_length_app (s t : string) :
  JS.length (s +:+ t) = JS.length s + JS.length t.
Proof. unfold JS.length. rewrite length_app. lia. Qed.

Lemma JS_length_nonneg (s : string) : 0 ≤ JS.length s.
Proof. unfold JS.length. lia. Qed.

Lemma substring_prefix (s t : string) :
  String.substring 0 (String.length s) (s +:+ t) = s.
Proof.
  induction s as [|a s IH]; simpl; [by destruct t | by rewrite IH].
Qed.

Lemma substring_all (s : string) :
  String.substring 0 (String.length s) s = s.
Proof. induction s as [|a s IH]; simpl; [done | by rewrite IH]. Qed.

Lemma substring_suffix (s t : string) :
  String.substring (String.length s) (String.length t) (s +:+ t) = t.
Proof. induction s as [|a s IH]; simpl; [apply substring_all | done]. Qed.




Lemma take_drop (k : nat) (s : string) :
  bytes_take k s +:+ bytes_drop k s = s.
Proof.
  revert s. induction k as [|k IH]; intros [|a s]; simpl; try done.
  by rewrite app_cons, IH.
Qed.

Lemma length_drop (k : nat) (s : string) :
  String.length (bytes_drop k s) = (String.length s - k)%nat.
Proof.
  revert s. induction k as [|k IH]; intros [|a s]; simpl; try done.
Qed.

Lemma take_all (k : nat) (s : string) :
  (String.length s ≤ k)%nat → bytes_take k s = s.
Proof.
  revert s. induction k as [|k IH]; intros [|a s]; simpl; try done.
  - lia.
  - intros Hle. rewrite IH; [done | lia].
Qed.

Lemma drop_all (k : nat) (s : string) :
  (String.length s ≤ k)%nat → bytes_drop k s = EmptyString.
Proof.
  revert s. induction k as [|k IH]; intros [|a s]; simpl; try done.
  - lia.
  - intros Hle. apply IH. lia.
Qed.

(** A read stream delivers the whole file, in order: the fuel of
    [chunks] is enough. *)
Lemma flatten_chunks_from (k fuel : nat) (s : string) :
  (0 < k)%nat → (String.length s ≤ fuel)%nat →
  flatten (chunks_from k fuel s) = s.
Proof.
  intros Hk. revert s. induction fuel as [|fuel IH]; intros s Hfuel.
  - destruct s; [done | simpl in Hfuel; lia].
  - destruct s as [|a s]; [done|].
    change (flatten (chunks_from k (S fuel) (String a s)))
      with (bytes_take k (String a s) +:+
            flatten (chunks_from k fuel (bytes_drop k (String a s)))).
    rewrite IH; [apply take_drop|].
    rewrite length_drop. simpl in *. lia.
Qed.

Lemma flatten_chunks (k : nat) (s : string) :
  (0 < k)%nat → flatten (chunks k s) = s.
Proof. intros Hk. by apply flatten_chunks_from. Qed.

(** A file that fits in one chunk comes as one chunk. *)
Lemma chunks_single (k : nat) (s : string) :
  s ≠ EmptyString → (String.length s ≤ k)%nat → chunks k s = [s].
Proof.
  intros Hs Hk. unfold chunks. destruct s as [|a s]; [done|].
  change (String.length (String a s)) with (S (String.length s)).
  change (chunks_from k (S (String.length s)) (String a s))
    with (bytes_take k (String a s) ::
          chunks_from k (String.length s) (bytes_drop k (String a s))).
  rewrite take_all, drop_all by done. by destruct (String.length s).
Qed.

Lemma split_not_nil (c : ascii) (s : string) : JS.split c s ≠ [].
Proof.
  destruct s as [|a s]; simpl; [done|].
  destruct (Ascii.eqb a c); [done|]. by destruct (JS.split c s).
Qed.

Lemma join_cons (c : string) (t : string) (l : list string) :
  l ≠ [] → JS.join c (t :: l) = t +:+ c +:+ JS.join c l.
Proof. by destruct l. Qed.

(** Splitting a chunk and joining the pieces gives the chunk back. *)
Lemma join_split (c : ascii) (s : string) :
  JS.join (chr c) (JS.split c s) = s.
Proof.
  induction s as [|a s IH]; [done|]. simpl JS.split.
  destruct (Ascii.eqb_spec a c) as [->|Hne].
  - rewrite join_cons by apply split_not_nil. rewrite IH. reflexivity.
  - pose proof (split_not_nil c s) as Hnil.
    destruct (JS.split c s) as [|t ts]; [done|].
    destruct ts as [|t' ts]; simpl in *; by rewrite <- IH.
Qed.

Lemma join_app (c : string) (l1 l2 : list string) :
  l1 ≠ [] → l2 ≠ [] →
  JS.join c (l1 ++ l2) = JS.join c l1 +:+ c +:+ JS.join c l2.
Proof.
  intros H1 H2. induction l1 as [|t l1 IH]; [done|].
  destruct l1 as [|t' l1].
  - simpl app. by rewrite join_cons.
  - change ((t :: t' :: l1) ++ l2) with (t :: ((t' :: l1) ++ l2)).
    rewrite join_cons by done. rewrite IH by done.
    rewrite (join_cons c t (t' :: l1)) by done. by rewrite !app_assoc_s.
Qed.

Lemma total_le_join (c : string) (l : list string) :
  total l ≤ JS.length (JS.join c l).
Proof.
  induction l as [|t l IH]; [done|].
  destruct l as [|t' l].
  - simpl. lia.
  - rewrite join_cons by done. rewrite !JS_length_app.
    change (total (t :: t' :: l)) with (JS.length t + total (t' :: l)).
    pose proof (JS_length_nonneg c). lia.
Qed.

(** The UTF-8 bytes of a string: one or two for each code unit. *)
Lemma encode_length (c : ascii) :
  JS.length (Buffer.encode c) =
    if (nat_of_ascii c <? 128)%nat then 1 else 2.
Proof. unfold Buffer.encode. by destruct (_ <? _)%nat. Qed.

Lemma from_app (s t : string) :
  Buffer.from (s +:+ t) = Buffer.from s +:+ Buffer.from t.
Proof.
  induction s as [|a s IH]; [done|].
  rewrite app_cons. simpl Buffer.from. by rewrite IH, app_assoc_s.
Qed.

(** ASCII text is its own encoding. *)
Lemma from_ascii (s : string) : JS.is_ascii s = true → Buffer.from s = s.
Proof.
  induction s as [|a s IH]; [done|]. simpl.
  intros [Ha Hs]%andb_true_iff. rewrite IH by done.
  unfold Buffer.encode. by rewrite Ha.
Qed.

Lemma byteLength_ascii (s : string) :
  JS.is_ascii s = true → Buffer.byteLength s = JS.length s.
Proof. intros Hs. unfold Buffer.byteLength. by rewrite from_ascii. Qed.

(** A string has at least as many bytes as code units, and as many only
    if it is ASCII. *)
Lemma byteLength_ge (s : string) : JS.length s ≤ Buffer.byteLength s.
Proof.
  unfold Buffer.byteLength. induction s as [|a s IH]; [done|].
  simpl Buffer.from. rewrite JS_length_app, encode_length.
  change (JS.length (String a s)) with (JS.length (chr a +:+ s)).
  rewrite JS_length_app. change (JS.length (chr a)) with 1.
  destruct (_ <? _)%nat; lia.
Qed.

Lemma byteLength_eq (s : string) :
  Buffer.byteLength s = JS.length s → JS.is_ascii s = true.
Proof.
  unfold Buffer.byteLength. induction s as [|a s IH]; [done|].
  simpl Buffer.from. rewrite JS_length_app, encode_length.
  change (JS.length (String a s)) with (JS.length (chr a +:+ s)).
  rewrite JS_length_app. change (JS.length (chr a)) with 1.
  pose proof (byteLength_ge s) as Hge. unfold Buffer.byteLength in Hge.
  simpl. destruct (_ <? _)%nat; intros Heq; [apply IH; lia | lia].
Qed.

(** On a Windows host the normalisation of the specification is what
    [addLog] does. *)
Lemma normalize_separators_windows p :
  normalize_separators "\" p = JS.replaceAll "/" "\" p.
Proof.
  unfold normalize_separators.
  induction p as [|a p IH]; [done|]. simpl. rewrite IH. f_equal.
  destruct (Ascii.eqb a "/") eqn:Ha; [done|].
  by destruct (Ascii.eqb_spec a "\").
Qed.

End Bytes.

(** ** Resolving an alias *)

Lemma find_None alias w : ¬ registered alias w → find alias w = None.
Proof.
  intros Hno. unfold find. apply list_find_None, Forall_forall.
  intros log Hin Halias. apply Hno. by exists log.
Qed.

Lemma find_Some alias w i log :
  find alias w = Some (i, log) →
  logs w !! i = Some log ∧ LogFile.alias log = alias.
Proof. unfold find. rewrite list_find_Some. by intros (? & ? & _). Qed.

Lemma registered_find alias w :
  registered alias w → ∃ i log, find alias w = Some (i, log).
Proof.
  intros (log & Hin & Halias). unfold find.
  destruct (list_find_elem_of (λ l, LogFile.alias l = alias) (logs w) log)
    as [[i l] Hfind]; eauto.
Qed.

Lemma find_assign alias i log n w :
  find alias w = Some (i, log) →
  find alias (set_logs w (<[i := LogFile.set_length log n]> (logs w)))
    = Some (i, LogFile.set_length log n).
Proof.
  unfold find. rewrite !list_find_Some. simpl.
  intros (Hi & Halias & Hfirst). split_and!.
  - apply list_lookup_insert_eq. by eapply lookup_lt_Some.
  - done.
  - intros j y Hj Hlt. rewrite list_lookup_insert_ne in Hj by lia. eauto.
Qed.

Lemma error_reports message w : reports_error (error message) w.
Proof.
  exists (tagged "[31m" "ERROR" message). unfold_M.
  repeat split; try done. by exists message.
Qed.

Section Resolution.
Variable h : Host.

(** C8.  For an alias that is not in the registry, each of [writeLog],
    [appendLog], [clearLog] and [removeLog] returns normally, writes
    exactly one error report and leaves the registry, the file system
    and the pending rotations as they were. *)
Theorem unknown_alias_is_reported (alias text : string) (w : World) :
  ¬ registered alias w →
  reports_error (writeLog h alias text) w ∧
  reports_error (appendLog h alias text) w ∧
  reports_error (clearLog h alias) w ∧
  reports_error (removeLog h alias) w.
Proof.
  intros Hfind%find_None.
  unfold writeLog, appendLog, clearLog, removeLog, reports_error.
  unfold mbind, M_bind, gets. rewrite Hfind.
  repeat split; apply error_reports.
Qed.

End Resolution.

(** C8 at work: a registry that knows [app] is asked for [audit]. *)
Lemma unknown_alias_is_reported_witness :
  let w := one_log "stop" "" 10 in
  ¬ registered "audit" w ∧
  reports_error (writeLog (windows false) "audit" "x") w ∧
  reports_error (appendLog (windows false) "audit" "x") w ∧
  reports_error (clearLog (windows false) "audit") w ∧
  reports_error (removeLog (windows false) "audit") w.
Proof.
  intros w.
  assert (Hno : ¬ registered "audit" w).
  { intros (log & Hin & Halias). simpl in Hin.
    rewrite list_elem_of_singleton in Hin. subst log. discriminate. }
  split; [exact Hno | exact (unknown_alias_is_reported _ "audit" "x" w Hno)].
Defined.

(** ** Appending *)

Section Appending.
Variable h : Host.

Lemma appendFileSync_appends f p d :
  appendable h f p →
  ∃ f', appendFileSync h f p d = Ok f' ∧
        content h f' p =
          Some (default EmptyString (content h f p) +:+ Buffer.from d).
Proof.
  unfold appendable, appendFileSync, open_write, content.
  intros Happ. destruct (names f !! resolve h p) as [ino|] eqn:Hname.
  - eexists. split; [reflexivity|]. simpl. rewrite Hname. simpl.
    unfold inode_content at 1. simpl. by rewrite lookup_insert_eq.
  - destruct Happ as [[? ?]|Hcreate]; [done|]. rewrite Hcreate.
    eexists. split; [reflexivity|]. simpl. rewrite lookup_insert_eq. simpl.
    unfold inode_content. simpl. by rewrite lookup_insert_eq.
Qed.

(** C7, as the code has it.  When [alias] resolves to [log] and [text]
    fits, that is [log.length + text.length <= log.maxLength], [appendLog]
    returns, the backing file holds its prior content followed by the
    UTF-8 bytes of [text], and the descriptor is the one it was with its
    length grown by [text.length], the number of UTF-16 code units of
    [text]: that is the prior length plus the byte length of [text]
    exactly when [text] is ASCII.  Nothing is printed and no rotation is
    set up. *)
Theorem append_within_limit (alias text : string) (w : World)
    (i : nat) (log : LogFile.t) :
  find alias w = Some (i, log) →
  LogFile.length log + JS.length text ≤ LogFile.maxLength log →
  appendable h (fs w) (LogFile.path log) →
  let w' := after (appendLog h alias text) w in
  let log' :=
    LogFile.mk (LogFile.path log) (LogFile.alias log)
      (LogFile.length log + JS.length text)
      (LogFile.maxLength log) (LogFile.behaviour log) in
  returns (appendLog h alias text) w ∧
  content h (fs w') (LogFile.path log) =
    Some (default EmptyString (content h (fs w) (LogFile.path log))
          +:+ Buffer.from text) ∧
  find alias w' = Some (i, log') ∧
  logs w' = <[i := log']> (logs w) ∧
  tracked alias w' = Some (LogFile.length log + JS.length text) ∧
  (tracked alias w' = Some (LogFile.length log + Buffer.byteLength text)
     ↔ JS.is_ascii text = true) ∧
  stdout w' = stdout w ∧ pending w' = pending w.
Proof.
  intros Hfind Hfits Happ.
  destruct (appendFileSync_appends (fs w) (LogFile.path log) text Happ)
    as (f' & Hf' & Hcontent).
  pose proof (find_assign alias i log
                (LogFile.length log + JS.length text) (set_fs w f') Hfind)
    as Hfound.
  intros w' log'.
  assert (Hw' : w' = set_logs (set_fs w f') (<[i := log']> (logs w))).
  { unfold w', appendLog. unfold_M. rewrite Hfind.
    rewrite gtb_false by done. by rewrite Hf'. }
  assert (Htracked :
    tracked alias w' = Some (LogFile.length log + JS.length text)).
  { unfold tracked. rewrite Hw'.
    change (find alias _) with
      (find alias (set_logs (set_fs w f')
         (<[i := LogFile.set_length log
                   (LogFile.length log + JS.length text)]>
            (logs (set_fs w f'))))).
    by rewrite Hfound. }
  split_and!.
  - unfold appendLog. unfold_M. rewrite Hfind.
    rewrite gtb_false by done. rewrite Hf'. by eexists.
  - by rewrite Hw'.
  - rewrite Hw'. exact Hfound.
  - by rewrite Hw'.
  - done.
  - rewrite Htracked. split.
    + intros [= Heq]. apply byteLength_eq. lia.
    + intros Hascii. by rewrite byteLength_ascii.
  - by rewrite Hw'.
  - by rewrite Hw'.
Qed.


End Appending.

(** C7 on a log of three bytes with room for two more: the file holds
    five bytes and the descriptor counts five. *)
Lemma append_within_limit_witness :
  let w := one_log "stop" "abc" 10 in
  let log := LogFile.mk "app.log" "app" 3 10 "stop" in
  let w' := after (appendLog (windows false) "app" "de") w in
  (find "app" w = Some (0%nat, log) ∧
   LogFile.length log + JS.length "de" ≤ LogFile.maxLength log ∧
   appendable (windows false) (fs w) (LogFile.path log)) ∧
  content (windows false) (fs w') "app.log" = Some "abcde" ∧
  find "app" w' = Some (0%nat, LogFile.mk "app.log" "app" 5 10 "stop") ∧
  logs w' = [LogFile.mk "app.log" "app" 5 10 "stop"] ∧
  tracked "app" w' = Some 5.
Proof.
  intros w log w'.
  assert (H1 : find "app" w = Some (0%nat, log)) by reflexivity.
  assert (H2 : LogFile.length log + JS.length "de" ≤ LogFile.maxLength log)
    by (vm_compute; discriminate).
  assert (H3 : appendable (windows false) (fs w) (LogFile.path log))
    by (left; eexists; vm_compute; reflexivity).
  split; [done|].
  destruct (append_within_limit (windows false) "app" "de" w 0 log H1 H2 H3)
    as (_ & Hc & Hf & Hl & Ht & _).
  split_and!; [exact Hc | exact Hf | exact Hl | exact Ht].
Defined.

(** C7 as the specification words it fails on text that is not ASCII.
    The log holds three bytes and may hold ten; the text is the one
    character U+00E9, of length 1 and of two bytes in UTF-8.  The append
    is within the limit whichever way the text is measured; the file
    grows by two bytes, to five, and the tracked length by one, to
    four. *)
Lemma append_length_is_not_byte_length :
  let h := windows false in
  let w := one_log "stop" "abc" 10 in
  let text := e_acute in
  let w' := after (appendLog h "app" text) w in
  (tracked "app" w = Some 3 ∧ size h w "app.log" = Some 3 ∧
   JS.length text = 1 ∧ Buffer.byteLength text = 2 ∧
   3 + JS.length text ≤ 10 ∧ 3 + Buffer.byteLength text ≤ 10) ∧
  returns (appendLog h "app" text) w ∧
  content h (fs w') "app.log" = Some ("abc" +:+ String "195" (chr "169")) ∧
  size h w' "app.log" = Some 5 ∧
  tracked "app" w' = Some 4 ∧
  tracked "app" w' ≠ Some (3 + Buffer.byteLength text).
Proof.
  intros h w text w'. split_and!; try reflexivity; try discriminate.
  by eexists.
Qed.


(** The same log with [ignore]: nothing is written anywhere. *)
Example ignore_is_silent :
  let w := one_log "ignore" "0123456789" 10 in
  appendLog (windows false) "app" "x" w = (Ok tt, w).
Proof. reflexivity. Qed.

(** The same log with [continue]: the limit is not enforced. *)
Example continue_goes_on :
  let h := windows false in
  let w' := after (appendLog h "app" "x") (one_log "continue" "0123456789" 10)
  in content h (fs w') "app.log" = Some "0123456789x" ∧
     tracked "app" w' = Some 11.
Proof. split; vm_compute; reflexivity. Qed.

(** ** What stays fixed in the registry *)

Section Frame.
Variable h : Host.

Lemma frames_registry_fields m w :
  frames_registry m w →
  length (logs (after m w)) = length (logs w) ∧
  ∀ i log', logs (after m w) !! i = Some log' →
    ∃ log, logs w !! i = Some log ∧
      LogFile.path log' = LogFile.path log ∧
      LogFile.alias log' = LogFile.alias log ∧
      LogFile.maxLength log' = LogFile.maxLength log ∧
      LogFile.behaviour log' = LogFile.behaviour log.
Proof.
  unfold frames_registry. intros Heq. split.
  - by rewrite <- (length_fmap LogFile.fixed), Heq, length_fmap.
  - intros i log' Hi.
    assert (Hfix : (LogFile.fixed <$> logs w) !! i
                   = Some (LogFile.fixed log')).
    { by rewrite <- Heq, list_lookup_fmap, Hi. }
    rewrite list_lookup_fmap in Hfix.
    destruct (logs w !! i) as [log|]; [|done].
    exists log. split; [done|].
    unfold LogFile.fixed in Hfix. by simplify_eq/=.
Qed.

Lemma fixed_assign (l : list LogFile.t) i log n :
  l !! i = Some log →
  LogFile.fixed <$> <[i := LogFile.set_length log n]> l
    = LogFile.fixed <$> l.
Proof.
  intros Hi. rewrite list_fmap_insert. apply list_insert_id.
  by rewrite list_lookup_fmap, Hi.
Qed.

Lemma logs_on_data fd chunk st w :
  logs (after (on_data fd st chunk) w) = logs w.
Proof.
  destruct st as [toDelete pass]. unfold on_data. unfold_M.
  destruct pass; [done|].
  destruct (toDelete >? JS.length chunk); [done|].
  destruct (trim_lines toDelete (JS.split LF chunk)) as [? [?|]]; done.
Qed.

Lemma logs_foldM_on_data fd l st w :
  logs (after (foldM (on_data fd) st l) w) = logs w.
Proof.
  revert st w. induction l as [|chunk l IH]; intros st w; [done|].
  pose proof (logs_on_data fd chunk st w) as Hstep.
  unfold after in *. simpl. unfold mbind, M_bind.
  destruct (on_data fd st chunk w) as [[st'|e] w1]; simpl in *.
  - by rewrite IH.
  - done.
Qed.

Lemma logs_fs_call op w : logs (after (fs_call op) w) = logs w.
Proof. unfold_M. by destruct (op (fs w)). Qed.

Lemma logs_rotate r w : logs (after (rotate h r) w) = logs w.
Proof.
  unfold rotate, after, mbind, M_bind, gets.
  destruct (open_write h false (fs w) (rot_path r +:+ ".temp") "")
    as [[fd f1]|e]; [|done].
  destruct (content h (fs w) (rot_path r)) as [old|]; [|done].
  pose proof (logs_foldM_on_data fd (chunks (highWaterMark h) old)
                (rot_toDelete r, false) (set_fs w f1)) as Hfold.
  unfold after in Hfold.
  destruct (foldM _ _ _ _) as [[st|e] w2]; simpl in *; [|done].
  unfold on_close, mbind, M_bind, fs_call, modify.
  repeat (match goal with
          | |- context [match ?op with Ok _ => _ | Throw _ => _ end] =>
              destruct op; simpl
          end); done.
Qed.

Lemma logs_serve w : logs (after (serve h) w) = logs w.
Proof.
  unfold serve, after, mbind, M_bind, gets, modify.
  destruct (pending w) as [|r rest]; [done|].
  apply (logs_rotate r (set_pending w rest)).
Qed.

(** Every branch of [overflow], on a descriptor of the registry. *)
Lemma overflow_frames_registry i log text w :
  logs w !! i = Some log → frames_registry (overflow h i log text) w.
Proof.
  intros Hi. unfold frames_registry, overflow, after. unfold_M.
  repeat (destruct (String.eqb _ _); simpl; [try done|]); try done;
    destruct (appendFileSync _ _ _ _); simpl; try done;
    by apply fixed_assign.
Qed.

(** C10.  [writeLog], [appendLog] (with every overflow branch it can
    take), [appendLineLog], [clearLog] and the completion of a rewrite
    rotation leave the registry with the same descriptors at the same
    positions, with their path, alias, maximum length and behaviour
    unchanged: they change the tracked length only. *)
Theorem registry_is_framed (alias text : string) (w : World) :
  frames_registry (writeLog h alias text) w ∧
  frames_registry (appendLog h alias text) w ∧
  frames_registry (appendLineLog h alias text) w ∧
  frames_registry (clearLog h alias) w ∧
  frames_registry (serve h) w ∧
  match find alias w with
  | Some (i, log) => frames_registry (overflow h i log text) w
  | None => True
  end.
Proof.
  assert (Happend : ∀ t, frames_registry (appendLog h alias t) w).
  { intros t. unfold frames_registry, appendLog, after, mbind, M_bind, gets.
    destruct (find alias w) as [[i log]|] eqn:Hfind; [|done].
    apply find_Some in Hfind as [Hi _].
    destruct (_ >? _).
    - by apply overflow_frames_registry.
    - unfold_M. destruct (appendFileSync _ _ _ _); simpl; [|done].
      by apply fixed_assign. }
  split_and!.
  - unfold frames_registry, writeLog, after. unfold_M.
    destruct (find alias w) as [[i log]|] eqn:Hfind; [|done].
    apply find_Some in Hfind as [Hi _].
    destruct (writeFileSync _ _ _ _); simpl; [|done].
    by apply fixed_assign.
  - apply Happend.
  - apply Happend.
  - unfold frames_registry, clearLog, after. unfold_M.
    destruct (find alias w) as [[i log]|] eqn:Hfind; [|done].
    apply find_Some in Hfind as [Hi _].
    destruct (writeFileSync _ _ _ _); simpl; [|done].
    by apply fixed_assign.
  - unfold frames_registry. by rewrite logs_serve.
  - destruct (find alias w) as [[i log]|] eqn:Hfind; [|done].
    apply find_Some in Hfind as [Hi _].
    by apply overflow_frames_registry.
Qed.

End Frame.

(** ** Registration *)

Section Registration.
Variable h : Host.

Lemma existsSync_content f p body :
  existsSync h f p = true ∧ content h f p = Some body ↔
  content h f p = Some body.
Proof.
  split; [by intros [_ ?]|]. intros Hbody. split; [|done].
  unfold existsSync, content in *.
  destruct (names f !! resolve h p); [|done].
  apply bool_decide_eq_true. by eexists.
Qed.

Lemma existsSync_false f p :
  content h f p = None → existsSync h f p = false.
Proof.
  unfold existsSync, content.
  destruct (names f !! resolve h p); [done|]. intros _.
  apply bool_decide_eq_false. by intros [? ?].
Qed.

(** The file is there: its size becomes the tracked length. *)
Lemma addLog_existing file alias maxLength behaviour w body :
  content h (fs w) (target h file) = Some body →
  addLog h file alias maxLength behaviour w =
    (Ok tt,
     set_logs (set_stdout w (stdout w ++ warning behaviour))
       (logs w ++
        [descriptor file alias (JS.length body) maxLength behaviour])).
Proof.
  intros Hbody. rewrite <- existsSync_content in Hbody.
  destruct Hbody as [Hthere Hbody].
  unfold addLog, target in *. unfold_M.
  rewrite Hthere. simpl. unfold statSync_size. rewrite Hbody.
  unfold descriptor, warning.
  destruct (accepted (default "stop" behaviour)); simpl.
  - f_equal. destruct w; unfold set_logs, set_stdout; simpl.
    by rewrite app_nil_r.
  - done.
Qed.

(** The file is not there and [fs.writeFileSync(file)] goes through:
    the tracked length is 0 whatever was written. *)
Lemma addLog_created file alias maxLength behaviour w f' :
  content h (fs w) (target h file) = None →
  writeFileSync h (fs w) (JS.replaceAll "/" "\" file) None = Ok f' →
  addLog h file alias maxLength behaviour w =
    (Ok tt,
     set_logs (set_stdout (set_fs w f') (stdout w ++ warning behaviour))
       (logs w ++ [descriptor file alias 0 maxLength behaviour])).
Proof.
  intros Hnone%existsSync_false Hwrite.
  unfold addLog, target in *. unfold_M. rewrite Hnone. cbn [negb].
  rewrite Hwrite. simpl. unfold descriptor, warning.
  destruct (accepted (default "stop" behaviour)); simpl.
  - f_equal. unfold set_logs, set_stdout, set_fs; simpl.
    by rewrite app_nil_r.
  - done.
Qed.

(** The file is not there and [fs.writeFileSync(file)] throws: one
    error report, and nothing is registered. *)
Lemma addLog_failed file alias maxLength behaviour w e :
  content h (fs w) (target h file) = None →
  writeFileSync h (fs w) (JS.replaceAll "/" "\" file) None = Throw e →
  addLog h file alias maxLength behaviour w =
    (Ok tt,
     set_stdout w (stdout w ++
       [tagged "[31m" "ERROR"
          ("Fama couldn't create a file " +:+ target h file)])).
Proof.
  intros Hnone%existsSync_false Hwrite.
  unfold addLog, target in *. unfold_M. rewrite Hnone. cbn [negb].
  by rewrite Hwrite.
Qed.

(** The three lemmas above cover every call. *)
Lemma addLog_cases file alias maxLength behaviour w :
  let w' := after (addLog h file alias maxLength behaviour) w in
  returns (addLog h file alias maxLength behaviour) w ∧
  (logs w' = logs w ∨
   ∃ length,
     logs w' =
       logs w ++ [descriptor file alias length maxLength behaviour]).
Proof.
  destruct (content h (fs w) (target h file)) as [body|] eqn:Hbody.
  - simpl. unfold after, returns.
    rewrite (addLog_existing _ _ _ _ _ _ Hbody). simpl. eauto.
  - destruct (writeFileSync h (fs w) (JS.replaceAll "/" "\" file) None)
      as [f'|e] eqn:Hwrite; simpl; unfold after, returns.
    + rewrite (addLog_created _ _ _ _ _ _ Hbody Hwrite). simpl. eauto.
    + rewrite (addLog_failed _ _ _ _ _ _ Hbody Hwrite). simpl. eauto.
Qed.

(** C9, amended.  Whatever the host, a call to [addLog] either
    registers nothing or appends one descriptor, whose path is the
    given path with every [/] replaced by [\]. *)
Theorem addLog_stores_backslashes (file alias : string)
    (maxLength : option Z) (behaviour : option string) (w : World) :
  let w' := after (addLog h file alias maxLength behaviour) w in
  logs w' = logs w ∨
  ∃ log, logs w' = logs w ++ [log] ∧
         LogFile.path log = JS.replaceAll "/" "\" file.
Proof.
  destruct (addLog_cases file alias maxLength behaviour w)
    as [_ [Hsame | [length Hpush]]]; [by left | right].
  by eexists.
Qed.

End Registration.

(** C9 as stated fails on a POSIX host: [logs/log.txt] is registered
    under [logs\log.txt], which is not the path with the separators of
    the host. *)
Lemma addLog_path_not_host_separator :
  let host := posix true in
  let w' := after (addLog host "logs/log.txt" "log" None None)
              (boot (disk [])) in
  ∃ log, logs w' = [log] ∧
    LogFile.path log = "logs\log.txt" ∧
    normalize_separators (sep host) "logs/log.txt" = "logs/log.txt" ∧
    LogFile.path log ≠ normalize_separators (sep host) "logs/log.txt".
Proof.
  simpl. eexists. split_and!; [reflexivity | reflexivity | reflexivity |].
  vm_compute. discriminate.
Qed.

(** ** Registration, run *)

(** The behaviours that [addLog] keeps are the four spelled as documented
    and the misspelled [ingore]. *)
Lemma accepted_values b :
  accepted b = true ↔
  b ∈ ["stop"; "ingore"; "split"; "rewrite"; "continue"].
Proof.
  unfold accepted. rewrite !elem_of_cons, elem_of_nil.
  destruct (String.eqb_spec b "stop"); [simpl; tauto|].
  destruct (String.eqb_spec b "ingore"); [simpl; tauto|].
  destruct (String.eqb_spec b "split"); [simpl; tauto|].
  destruct (String.eqb_spec b "rewrite"); [simpl; tauto|].
  destruct (String.eqb_spec b "continue"); [simpl; tauto|].
  simpl. split; [done | tauto].
Qed.

(** C3, the failing input.  [addLog('log.txt', 'log', 10, 'ignore')]
    writes a warning and registers the log with behaviour [stop]; the
    misspelled [ingore] is registered as it is, without a warning. *)
Theorem addLog_ignore_is_refused :
  let h := windows false in
  addLog h "log.txt" "log" (Some 10) (Some "ignore") (boot empty_log) =
    (Ok tt,
     {| fs := empty_log;
        logs := [LogFile.mk "log.txt" "log" 0 10 "stop"];
        stdout := [tagged "[33m" "WARNING"
          "'ignore' is not valid behaviour type. Defaulting to stop."];
        pending := [] |}) ∧
  addLog h "log.txt" "log" (Some 10) (Some "ingore") (boot empty_log) =
    (Ok tt,
     {| fs := empty_log;
        logs := [LogFile.mk "log.txt" "log" 0 10 "ingore"];
        stdout := [];
        pending := [] |}).
Proof. split; reflexivity. Qed.

(** The other four documented behaviours are kept, on any host and in
    any state, and nothing is printed for them. *)
Lemma addLog_keeps_behaviour h file alias maxLength b w body :
  b ∈ ["stop"; "split"; "rewrite"; "continue"] →
  content h (fs w) (target h file) = Some body →
  addLog h file alias maxLength (Some b) w =
    (Ok tt,
     set_logs w (logs w ++
       [ {| LogFile.path := JS.replaceAll "/" "\" file;
            LogFile.alias := alias; LogFile.length := JS.length body;
            LogFile.maxLength := default 5000 maxLength;
            LogFile.behaviour := b |} ])).
Proof.
  intros Hb Hbody. rewrite (addLog_existing _ _ _ _ _ _ _ Hbody).
  assert (Hacc : accepted b = true).
  { apply accepted_values. rewrite !elem_of_cons, elem_of_nil in *. tauto. }
  unfold descriptor, warning. simpl. rewrite Hacc.
  destruct w. unfold set_logs, set_stdout. simpl. by rewrite app_nil_r.
Qed.

(** C4, the failing input.  [addLog('log.txt', 'log', 10)] when there is
    no [log.txt]: the source calls [fs.writeFileSync(file)] with no
    data.  A Node that coerces the missing data creates the file with
    the nine bytes of [undefined] in it, against a tracked length of 0;
    a Node that rejects it throws, so the error is reported and nothing
    is registered.  Neither leaves an empty file with a descriptor of
    length 0. *)
Theorem addLog_missing_file :
  (let h := windows true in
   let w' := after (addLog h "log.txt" "log" (Some 10) None)
               (boot (disk [])) in
   content h (fs w') "log.txt" = Some "undefined" ∧
   logs w' = [LogFile.mk "log.txt" "log" 0 10 "stop"] ∧
   stdout w' = []) ∧
  (let h := windows false in
   let w' := after (addLog h "log.txt" "log" (Some 10) None)
               (boot (disk [])) in
   logs w' = [] ∧
   stdout w' = [tagged "[31m" "ERROR"
                  "Fama couldn't create a file C:\app\log.txt"]).
Proof. split; repeat split; vm_compute; reflexivity. Qed.

(** What does hold of C4: a file that is there gives its size as the
    tracked length, and a failure of the file system is reported and
    registers nothing. *)
Lemma addLog_existing_length h file alias maxLength behaviour w body :
  content h (fs w) (target h file) = Some body →
  let w' := after (addLog h file alias maxLength behaviour) w in
  fs w' = fs w ∧
  ∃ log, logs w' = logs w ++ [log] ∧ LogFile.length log = JS.length body.
Proof.
  intros Hbody. unfold after. rewrite (addLog_existing _ _ _ _ _ _ _ Hbody).
  simpl. split; [done|]. by eexists.
Qed.

Lemma addLog_error_is_reported h file alias maxLength behaviour w e :
  content h (fs w) (target h file) = None →
  writeFileSync h (fs w) (JS.replaceAll "/" "\" file) None = Throw e →
  returns (addLog h file alias maxLength behaviour) w ∧
  ∃ line, error_report line ∧
    only_prints line w (after (addLog h file alias maxLength behaviour) w).
Proof.
  intros Hnone Hwrite. unfold returns, after.
  rewrite (addLog_failed _ _ _ _ _ _ _ Hnone Hwrite). simpl.
  split; [by eexists|]. eexists. split; [by eexists|]. done.
Qed.


(** ** The split policy *)

Section Splitting.
Variable h : Host.



End Splitting.



(** ** The rewrite policy *)

Section Trimming.

Lemma trim_lines_Some td texts td' out :
  trim_lines td texts = (td', Some out) →
  ∃ gone kept, texts = gone ++ kept ∧ gone ≠ [] ∧ kept ≠ [] ∧
    out = JS.join (chr LF) kept ∧ td ≤ total gone.
Proof.
  revert td. induction texts as [|t rest IH]; intros td; simpl; [done|].
  destruct ((td - JS.length t <=? 0) && negb (bool_decide (rest = [])))
    eqn:Hcut.
  - intros [= <- <-]. apply andb_true_iff in Hcut as [Hle Hrest].
    exists [t], rest. split_and!; try done.
    + by apply negb_true_iff, bool_decide_eq_false in Hrest.
    + simpl. apply Z.leb_le in Hle. lia.
  - intros Htrim.
    destruct (IH _ Htrim) as (gone & kept & -> & Hg & Hk & -> & Hle).
    exists (t :: gone), kept. split_and!; try done. simpl. lia.
Qed.

(** The chunk that holds the cut: what is written is the chunk without
    a prefix of at least [td] bytes, and that prefix is the whole chunk
    or ends with a line feed. *)
Lemma cut_chunk td chunk td' out :
  td ≤ JS.length chunk →
  trim_lines td (JS.split LF chunk) = (td', out) →
  ∃ dropped,
    chunk = dropped +:+ default EmptyString out ∧
    td ≤ JS.length dropped ∧
    (out = None ∨ ends_with LF dropped).
Proof.
  intros Hle Htrim. destruct out as [out|].
  - destruct (trim_lines_Some _ _ _ _ Htrim)
      as (gone & kept & Hsplit & Hg & Hk & -> & Htotal).
    exists (JS.join (chr LF) gone +:+ chr LF). split_and!.
    + rewrite <- (join_split LF chunk) at 1. rewrite Hsplit.
      rewrite join_app by done. by rewrite app_assoc_s.
    + rewrite JS_length_app.
      pose proof (total_le_join (chr LF) gone).
      pose proof (JS_length_nonneg (chr LF)). lia.
    + right. by eexists.
  - exists chunk. split_and!; [by rewrite app_empty_r | done | by left].
Qed.

Lemma written_pass td l : written td true l = flatten l.
Proof. induction l as [|chunk l IH]; simpl; [done | by rewrite IH]. Qed.

Lemma written_step td chunk rest :
  written td false (chunk :: rest) =
    if td >? JS.length chunk
    then written (td - JS.length chunk) false rest
    else
      let '(td', out) := trim_lines td (JS.split LF chunk) in
      default EmptyString out +:+ written td' true rest.
Proof. reflexivity. Qed.

(** Whatever the chunks, what is written is the file without a prefix,
    and unless nothing is written that prefix has at least [td] bytes. *)
Lemma written_cut td l :
  ∃ dropped,
    flatten l = dropped +:+ written td false l ∧
    (written td false l = EmptyString ∨ td ≤ JS.length dropped).
Proof.
  revert td. induction l as [|chunk rest IH]; intros td.
  - exists EmptyString. split; [done | by left].
  - rewrite written_step.
    change (flatten (chunk :: rest)) with (chunk +:+ flatten rest).
    destruct (td >? JS.length chunk) eqn:Hgt.
    + destruct (IH (td - JS.length chunk)) as (d & Hd & Hb).
      exists (chunk +:+ d). split.
      * by rewrite Hd at 1; rewrite app_assoc_s.
      * destruct Hb as [Hb|Hb]; [by left | right].
        rewrite JS_length_app. lia.
    + destruct (trim_lines td (JS.split LF chunk)) as [td' out] eqn:Htrim.
      assert (Hle : td ≤ JS.length chunk).
      { rewrite Z.gtb_ltb in Hgt. apply Z.ltb_ge in Hgt. lia. }
      destruct (cut_chunk _ _ _ _ Hle Htrim) as (d & Hc & Hd & _).
      exists d. rewrite written_pass. split; [|by right].
      by rewrite Hc at 1; rewrite app_assoc_s.
Qed.

(** A file of one chunk: the prefix that goes is the whole file or ends
    with a line feed. *)
Lemma written_single td chunk :
  ∃ dropped,
    chunk = dropped +:+ written td false [chunk] ∧
    (written td false [chunk] = EmptyString ∨
     ends_with LF dropped ∧ td ≤ JS.length dropped).
Proof.
  rewrite written_step. destruct (td >? JS.length chunk) eqn:Hgt.
  - exists chunk. split; [by rewrite app_empty_r | by left].
  - destruct (trim_lines td (JS.split LF chunk)) as [td' out] eqn:Htrim.
    assert (Hle : td ≤ JS.length chunk).
    { rewrite Z.gtb_ltb in Hgt. apply Z.ltb_ge in Hgt. lia. }
    destruct (cut_chunk _ _ _ _ Hle Htrim) as (d & Hc & Hd & Hends).
    exists d. simpl written. rewrite app_empty_r. split; [done|].
    destruct Hends as [-> | Hends]; [by left | by right].
Qed.

End Trimming.

Section Rotating.
Variable h : Host.

Lemma wrote_nothing fd w : wrote fd EmptyString w w.
Proof. unfold wrote. by rewrite app_empty_r. Qed.

Lemma wrote_stream_write fd data w :
  wrote fd data w (set_fs w (stream_write (fs w) fd data)).
Proof.
  unfold wrote, stream_write, inode_content. simpl.
  by rewrite lookup_insert_eq.
Qed.

Lemma wrote_more fd a b w w1 w2 :
  wrote fd a w w1 → wrote fd b w1 w2 → wrote fd (a +:+ b) w w2.
Proof.
  unfold wrote. intros (?&?&Ha&?&?&?) (?&?&Hb&?&?&?).
  split_and!; try congruence. by rewrite Hb, Ha, app_assoc_s.
Qed.

(** The [data] handler over all the chunks writes [written]. *)
Lemma foldM_on_data_wrote fd l td pass w :
  ∃ st' w',
    foldM (on_data fd) (td, pass) l w = (Ok st', w') ∧
    wrote fd (written td pass l) w w'.
Proof.
  revert td pass w. induction l as [|chunk rest IH]; intros td pass w.
  - exists (td, pass), w. split; [done | apply wrote_nothing].
  - simpl foldM. unfold mbind, M_bind.
    destruct pass.
    + simpl on_data. unfold_M.
      destruct (IH td true (set_fs w (stream_write (fs w) fd chunk)))
        as (st' & w' & Hrun & Hw).
      exists st', w'. split; [done|].
      eapply wrote_more; [apply wrote_stream_write | done].
    + rewrite written_step. simpl on_data.
      destruct (td >? JS.length chunk).
      * unfold_M. apply IH.
      * destruct (trim_lines td (JS.split LF chunk)) as [td' [out|]].
        -- unfold_M.
           destruct (IH td' true (set_fs w (stream_write (fs w) fd out)))
             as (st' & w' & Hrun & Hw).
           exists st', w'. split; [done|].
           eapply wrote_more; [apply wrote_stream_write | done].
        -- unfold_M. destruct (IH td' true w) as (st' & w' & Hrun & Hw).
           exists st', w'. split; [done|]. done.
Qed.

(** The rotation of [r] on a file that is there: the file ends up with
    what the handler wrote followed by the bytes of the text, the
    temporary name is gone, nothing is printed and the registry is as it
    was. *)
Theorem rotate_result (r : Rotation) (w : World) (old : string) :
  content h (fs w) (rot_path r) = Some old →
  resolve h (rot_path r +:+ ".temp") ≠ resolve h (rot_path r) →
  creatable (fs w) (resolve h (rot_path r)) = true →
  appendable h (fs w) (rot_path r +:+ ".temp") →
  let kept := written (rot_toDelete r) false (chunks (highWaterMark h) old) in
  let w' := after (rotate h r) w in
  returns (rotate h r) w ∧
  content h (fs w') (rot_path r) =
    Some (kept +:+ Buffer.from (rot_text r)) ∧
  content h (fs w') (rot_path r +:+ ".temp") = None ∧
  logs w' = logs w ∧ stdout w' = stdout w ∧ pending w' = pending w.
Proof.
  intros Hold Hne Hdir Htemp kept w'. subst kept w'.
  set (p := resolve h (rot_path r)) in *.
  set (t := resolve h (rot_path r +:+ ".temp")) in *.
  assert (Hp : is_Some (names (fs w) !! p)).
  { unfold content in Hold. fold p in Hold.
    destruct (names (fs w) !! p); [by eexists | done]. }
  (* the streams open *)
  assert (Hopen : ∃ fd f1,
    open_write h false (fs w) (rot_path r +:+ ".temp") "" = Ok (fd, f1) ∧
    names f1 !! t = Some fd ∧ names f1 !! p = names (fs w) !! p ∧
    creatable f1 = creatable (fs w) ∧ inode_content f1 fd = EmptyString).
  { unfold open_write. fold t.
    destruct (names (fs w) !! t) as [fd|] eqn:Ht.
    - exists fd, (set_inode (fs w) fd ""). split_and!; try done.
      unfold inode_content. simpl. by rewrite lookup_insert_eq.
    - destruct Htemp as [[? Hsome]|Hcreate].
      { fold t in Hsome. congruence. }
      fold t in Hcreate. rewrite Hcreate.
      exists (next (fs w)), (create (fs w) t ""). split_and!; try done.
      + simpl. by rewrite lookup_insert_eq.
      + simpl. by rewrite lookup_insert_ne.
      + unfold inode_content. simpl. by rewrite lookup_insert_eq. }
  destruct Hopen as (fd & f1 & Hopen & Ht1 & Hp1 & Hc1 & Hfd1).
  destruct (foldM_on_data_wrote fd (chunks (highWaterMark h) old)
              (rot_toDelete r) false (set_fs w f1))
    as (st' & w2 & Hrun & Hn2 & Hc2 & Hfd2 & Hl2 & Ho2 & Hq2).
  simpl in Hn2, Hc2, Hfd2, Hl2, Ho2, Hq2.
  destruct Hp as [ino Hp].
  unfold rotate, returns, after. unfold mbind, M_bind, gets.
  rewrite Hold, Hopen, Hrun.
  unfold on_close, mbind, M_bind, fs_call, modify, unlinkSync, linkSync.
  fold p t. simpl.
  rewrite Hn2, Hp1, Hp. simpl.
  rewrite lookup_delete_ne by done. rewrite Ht1, lookup_delete_eq.
  rewrite Hc2, Hc1, Hdir. simpl.
  rewrite lookup_insert_ne by done. rewrite lookup_delete_ne by done.
  rewrite Ht1. simpl.
  split_and!; try done.
  - by eexists.
  - unfold content. simpl. fold p.
    rewrite lookup_delete_ne by done. rewrite lookup_insert_eq.
    unfold inode_content in *. simpl. rewrite lookup_insert_eq. simpl.
    unfold inode_content. simpl. by rewrite Hfd2, Hfd1.
  - unfold content. simpl. fold t. by rewrite lookup_delete_eq.
Qed.

End Rotating.

Section Rewriting.
Variable h : Host.

(** X19.  What the rewrite policy guarantees on a log file with ASCII
    content.  Let [alias] resolve to a rewrite descriptor whose file
    holds the ASCII bytes [old], let [text] overflow, and let the
    rotation run with no other rotation pending.  Then the file ends up
    as a tail [kept] of [old] followed by the UTF-8 bytes of [text], and
    the registry, so the tracked length too, is as before the call.
    Unless nothing of [old] is kept, the prefix that went has at least
    [toDelete] bytes, so that a tracked length that is no less than the
    size of the file bounds the new size by [maxLength] plus the bytes
    by which [text] exceeds [text.length]: by [maxLength] when [text] is
    ASCII.  When [old] fits in one chunk of the read stream, the prefix
    that went is the whole of [old] or ends with a line feed. *)
Theorem rewrite_rotation (alias text : string) (w : World)
    (i : nat) (log : LogFile.t) (old : string) :
  find alias w = Some (i, log) →
  LogFile.behaviour log = "rewrite" →
  LogFile.length log + JS.length text > LogFile.maxLength log →
  pending w = [] →
  content h (fs w) (LogFile.path log) = Some old →
  JS.is_ascii old = true →
  (0 < highWaterMark h)%nat →
  resolve h (LogFile.path log +:+ ".temp") ≠ resolve h (LogFile.path log) →
  creatable (fs w) (resolve h (LogFile.path log)) = true →
  appendable h (fs w) (LogFile.path log +:+ ".temp") →
  let w' := after (appendLog h alias text;; serve h) w in
  returns (appendLog h alias text;; serve h) w ∧
  logs w' = logs w ∧
  ∃ dropped kept,
    old = dropped +:+ kept ∧
    content h (fs w') (LogFile.path log) =
      Some (kept +:+ Buffer.from text) ∧
    (JS.length old ≤ LogFile.length log →
       kept = EmptyString ∨
       JS.length (kept +:+ Buffer.from text) ≤
         LogFile.maxLength log + (Buffer.byteLength text - JS.length text)) ∧
    (JS.length old ≤ LogFile.length log → JS.is_ascii text = true →
       kept = EmptyString ∨
       JS.length (kept +:+ Buffer.from text) ≤ LogFile.maxLength log) ∧
    ((String.length old ≤ highWaterMark h)%nat →
       kept = EmptyString ∨ ends_with LF dropped).
Proof.
  intros Hfind Hb Hover Hpending Hold Hascii Hk Hne Hdir Htemp.
  set (r := {| rot_path := LogFile.path log; rot_text := text;
               rot_toDelete := LogFile.length log + JS.length text
                                 - LogFile.maxLength log |}).
  assert (Hrun : (appendLog h alias text;; serve h) w =
                 rotate h r (set_pending (set_pending w [r]) [])).
  { unfold appendLog, serve. unfold_M. rewrite Hfind, gtb_true by done.
    unfold overflow. rewrite Hb. simpl. unfold_M. simpl.
    by rewrite Hpending. }
  destruct (rotate_result h r (set_pending (set_pending w [r]) []) old
              Hold Hne Hdir Htemp)
    as (Hret & Hcontent & _ & Hlogs & _).
  simpl. unfold returns, after in *. rewrite Hrun.
  split; [done|]. split; [done|].
  set (kept := written (rot_toDelete r) false (chunks (highWaterMark h) old))
    in *.
  assert (Hcut : ∃ dropped,
    old = dropped +:+ kept ∧
    (kept = EmptyString ∨ rot_toDelete r ≤ JS.length dropped) ∧
    ((String.length old ≤ highWaterMark h)%nat →
       kept = EmptyString ∨ ends_with LF dropped)).
  { destruct (decide (String.length old ≤ highWaterMark h)%nat)
      as [Hone|Hmany].
    - destruct (decide (old = EmptyString)) as [->|Hsome].
      { exists EmptyString. split_and!; [done | by left | by left]. }
      unfold kept. rewrite chunks_single by done.
      destruct (written_single (rot_toDelete r) old) as (d & Hd & Hwhole).
      exists d. split; [done|].
      destruct Hwhole as [Hnone | [Hends Hbudget]].
      + split; [by left | by left].
      + split; [by right | by right].
    - destruct (written_cut (rot_toDelete r) (chunks (highWaterMark h) old))
        as (d & Hd & Hbudget).
      rewrite flatten_chunks in Hd by done.
      exists d. split_and!; [done | done | by intros ?]. }
  destruct Hcut as (dropped & Hcut & Hbudget & Hlines).
  assert (Hbound : JS.length old ≤ LogFile.length log →
    kept = EmptyString ∨
    JS.length (kept +:+ Buffer.from text) ≤
      LogFile.maxLength log + (Buffer.byteLength text - JS.length text)).
  { intros Hsize. destruct Hbudget as [Hnone|Hbudget]; [by left | right].
    rewrite Hcut, JS_length_app in Hsize. rewrite JS_length_app.
    fold (Buffer.byteLength text). simpl in Hbudget. lia. }
  exists dropped, kept. split_and!; [done | done | done | | done].
  intros Hsize Htext. destruct (Hbound Hsize) as [Hnone|Hle]; [by left|].
  right. rewrite byteLength_ascii in Hle by done. lia.
Qed.

End Rewriting.

(** X19 at work on a log of eight bytes out of ten that gets a line
    of four: the first line goes, whole. *)
Example rewrite_rotation_runs :
  let h := windows false in
  let log := LogFile.mk "app.log" "app" 8 10 "rewrite" in
  let w := one_log "rewrite" (lines ["1234"; "ab"]) 10 in
  let w' := after (appendLog h "app" (lines ["xyz"]);; serve h) w in
  (find "app" w = Some (0%nat, log) ∧
   JS.is_ascii (lines ["1234"; "ab"]) = true ∧
   JS.is_ascii (lines ["xyz"]) = true) ∧
  logs w' = logs w ∧
  content h (fs w') "app.log" = Some (lines ["ab"; "xyz"]) ∧
  ∃ dropped kept,
    lines ["1234"; "ab"] = dropped +:+ kept ∧
    content h (fs w') "app.log" = Some (kept +:+ lines ["xyz"]) ∧
    (kept = EmptyString ∨ JS.length (kept +:+ lines ["xyz"]) ≤ 10) ∧
    (kept = EmptyString ∨ ends_with LF dropped).
Proof.
  intros h log w w'.
  destruct (rewrite_rotation h "app" (lines ["xyz"]) w 0 log
              (lines ["1234"; "ab"]))
    as (_ & Hlogs & dropped & kept & Hcut & Hcontent & _ & Hsize & Hlines).
  - reflexivity.
  - reflexivity.
  - vm_compute. reflexivity.
  - reflexivity.
  - vm_compute. reflexivity.
  - reflexivity.
  - apply Nat.ltb_lt. vm_compute. reflexivity.
  - vm_compute. discriminate.
  - reflexivity.
  - right. reflexivity.
  - split; [by split_and!|]. split; [exact Hlogs|].
    split; [vm_compute; reflexivity|].
    exists dropped, kept. split_and!.
    + exact Hcut.
    + exact Hcontent.
    + apply Hsize; [vm_compute; discriminate | reflexivity].
    + apply Hlines. apply Nat.leb_le. vm_compute. reflexivity.
Defined.

(** The scenario of the specification: four lines of three bytes into a
    log of at most ten.  The rotation drops the oldest line, and here the
    stale tracked length happens to agree with the size of the file. *)
Example four_short_lines :
  let h := windows false in
  let w' := after (addLog h "log.txt" "log" (Some 10) (Some "rewrite");;
                   appendLineLog h "log" "12";;
                   appendLineLog h "log" "ab";;
                   appendLineLog h "log" "XY";;
                   appendLineLog h "log" "+-";;
                   serve h) (boot empty_log) in
  content h (fs w') "log.txt" = Some (lines ["ab"; "XY"; "+-"]) ∧
  content h (fs w') "log.txt.temp" = None ∧
  tracked "log" w' = Some 9 ∧ pending w' = [].
Proof. repeat split; vm_compute; reflexivity. Qed.

(** A rotation on a log whose file is gone fails outside any method, and
    leaves the temporary file behind, empty. *)
Example rotation_of_a_missing_file :
  let h := windows false in
  let log := LogFile.mk "app.log" "app" 8 10 "rewrite" in
  let w := set_logs (boot (disk [])) [log] in
  let run := (appendLog h "app" "xyz";; serve h) w in
  run.1 = Throw (ENOENT "app.log") ∧
  content h (fs run.2) "app.log" = None ∧
  content h (fs run.2) "app.log.temp" = Some EmptyString ∧
  logs run.2 = [log] ∧ pending run.2 = [].
Proof. split_and!; reflexivity. Qed.

(** C1, the failing input.  A log of at most ten bytes holds the lines
    [1234] and [ab], eight bytes; appending the line [xyz] overflows.
    When the rotation is complete the file holds [ab] and [xyz], seven
    bytes, and the tracked length is still eight: no handler of the
    rotation assigns [log.length]. *)
Theorem rewrite_leaves_length_stale :
  let h := windows false in
  let w' := after (addLog h "log.txt" "log" (Some 10) (Some "rewrite");;
                   appendLineLog h "log" "1234";;
                   appendLineLog h "log" "ab";;
                   appendLineLog h "log" "xyz";;
                   serve h) (boot empty_log) in
  content h (fs w') "log.txt" = Some (lines ["ab"; "xyz"]) ∧
  size h w' "log.txt" = Some 7 ∧
  tracked "log" w' = Some 8 ∧
  pending w' = [].
Proof. repeat split; vm_compute; reflexivity. Qed.

(** C2, the failing input.  With the tracked length left behind by a
    first rotation (2 for a file of 9 bytes), a line of eight bytes is
    taken to fit, and the rotation of the next overflowing append cuts a
    file of 17 bytes by its first line only: 15 bytes are kept and the
    file ends with 16, for a maximum of 10. *)
Theorem rewrite_exceeds_maxLength :
  let h := windows false in
  let w := after (addLog h "log.txt" "log" (Some 10) (Some "rewrite");;
                  appendLineLog h "log" "a";;
                  appendLog h "log" (lines ["b"; "cdefgh"]);;
                  serve h;;
                  appendLineLog h "log" "xxxxxxx")
             (boot empty_log) in
  let w' := after (appendLog h "log" "z";; serve h) w in
  content h (fs w) "log.txt" = Some (lines ["b"; "cdefgh"; "xxxxxxx"]) ∧
  tracked "log" w = Some 10 ∧
  content h (fs w') "log.txt" = Some (lines ["cdefgh"; "xxxxxxx"] +:+ "z") ∧
  JS.length (lines ["cdefgh"; "xxxxxxx"]) = 15 ∧
  size h w' "log.txt" = Some 16.
Proof. repeat split; vm_compute; reflexivity. Qed.

(** A second way for C2 to fail: the cut falls in a chunk of the read
    stream that has no line feed before it.  The file starts with a line
    of 65539 bytes; the first chunk, 65536 bytes of that line, is dropped
    as a whole and the next chunk is copied from its first byte, so the
    file then starts with the last three bytes of the line. *)
Lemma rewrite_cuts_inside_a_line :
  let h := windows false in
  let body :=
    replicate_char (64 * 1024 + 3) "a" +:+ chr LF +:+ lines ["bb"] in
  let w := after (addLog h "log.txt" "log" (Some 65543) (Some "rewrite"))
             (boot (disk [("C:\app\log.txt", body)])) in
  let w' := after (appendLineLog h "log" "x";; serve h) w in
  tracked "log" w = Some 65543 ∧
  content h (fs w') "log.txt" = Some (lines ["aaa"; "bb"; "x"]).
Proof. split; vm_compute; reflexivity. Qed.

(** * Further properties of the registry and the writer *)

Section Writer.
Variable h : Host.

(** The methods on an alias that resolves. *)
Lemma writeLog_found alias text w i log :
  find alias w = Some (i, log) →
  writeLog h alias text w =
    (fs_call (λ f, writeFileSync h f (LogFile.path log) (Some text));;
     assign_length i log (JS.length text)) w.
Proof. intros Hfind. unfold writeLog, mbind, M_bind, gets. by rewrite Hfind. Qed.

Lemma clearLog_found alias w i log :
  find alias w = Some (i, log) →
  clearLog h alias w =
    (fs_call (λ f, writeFileSync h f (LogFile.path log) (Some ""));;
     assign_length i log 0) w.
Proof. intros Hfind. unfold clearLog, mbind, M_bind, gets. by rewrite Hfind. Qed.

Lemma removeLog_found alias w i log :
  find alias w = Some (i, log) →
  removeLog h alias w =
    (fs_call (λ f, unlinkSync h f (LogFile.path log));;
     modify (λ w, set_logs w (delete i (logs w)))) w.
Proof. intros Hfind. unfold removeLog, mbind, M_bind, gets. by rewrite Hfind. Qed.

Lemma appendLog_found alias text w i log :
  find alias w = Some (i, log) →
  appendLog h alias text w =
    if LogFile.length log + JS.length text >? LogFile.maxLength log
    then overflow h i log text w
    else (fs_call (λ f, appendFileSync h f (LogFile.path log) text);;
          assign_length i log (LogFile.length log + JS.length text)) w.
Proof.
  intros Hfind. unfold appendLog, mbind, M_bind, gets. rewrite Hfind.
  by destruct (_ >? _).
Qed.

Lemma writeFileSync_writes f p d :
  appendable h f p →
  ∃ f', writeFileSync h f p (Some d) = Ok f' ∧
        content h f' p = Some (Buffer.from d).
Proof.
  unfold appendable, writeFileSync, open_write, content.
  intros Happ. destruct (names f !! resolve h p) as [ino|] eqn:Hname.
  - eexists. split; [reflexivity|]. simpl. rewrite Hname. simpl.
    unfold inode_content. simpl. by rewrite lookup_insert_eq.
  - destruct Happ as [[? ?]|Hcreate]; [done|]. rewrite Hcreate.
    eexists. split; [reflexivity|]. simpl. rewrite lookup_insert_eq. simpl.
    unfold inode_content. simpl. by rewrite lookup_insert_eq.
Qed.

(** X1.  [writeLog] on an alias that resolves replaces the whole content
    of the file by the UTF-8 bytes of [text] and sets the tracked length
    to [text.length], whatever the behaviour, the maximum and the length
    were; the other fields of the descriptor stay.  Afterwards the
    tracked length is the size of the file exactly when [text] is
    ASCII. *)
Theorem writeLog_overwrites (alias text : string) (w : World)
    (i : nat) (log : LogFile.t) :
  find alias w = Some (i, log) →
  appendable h (fs w) (LogFile.path log) →
  let w' := after (writeLog h alias text) w in
  returns (writeLog h alias text) w ∧
  content h (fs w') (LogFile.path log) = Some (Buffer.from text) ∧
  find alias w' =
    Some (i, LogFile.mk (LogFile.path log) (LogFile.alias log)
               (JS.length text)
               (LogFile.maxLength log) (LogFile.behaviour log)) ∧
  size h w' (LogFile.path log) = Some (Buffer.byteLength text) ∧
  tracked alias w' = Some (JS.length text) ∧
  (in_sync h alias w' ↔ JS.is_ascii text = true) ∧
  stdout w' = stdout w ∧ pending w' = pending w.
Proof.
  intros Hfind Happ.
  destruct (writeFileSync_writes (fs w) (LogFile.path log) text Happ)
    as (f' & Hf' & Hcontent).
  set (w1 := set_logs (set_fs w f')
               (<[i := LogFile.set_length log (JS.length text)]> (logs w))).
  assert (Hrun : writeLog h alias text w = (Ok tt, w1)).
  { rewrite (writeLog_found _ _ _ _ _ Hfind). unfold_M. by rewrite Hf'. }
  assert (Hfind' :
    find alias w1 = Some (i, LogFile.set_length log (JS.length text)))
    by exact (find_assign alias i log _ (set_fs w f') Hfind).
  assert (Hbody : content h (fs w1) (LogFile.path log)
                  = Some (Buffer.from text)) by exact Hcontent.
  unfold returns, after, size, tracked. rewrite Hrun. cbn [fst snd].
  rewrite Hfind', Hbody.
  split_and!; try done.
  - by eexists.
  - split.
    + intros (i0 & log0 & body & Hfind0 & Hbody0 & Hlen).
      rewrite Hfind' in Hfind0. injection Hfind0 as <- <-.
      change (LogFile.path (LogFile.set_length log (JS.length text)))
        with (LogFile.path log) in Hbody0.
      rewrite Hbody in Hbody0. injection Hbody0 as <-.
      apply byteLength_eq. symmetry. exact Hlen.
    + intros Hascii.
      exists i, (LogFile.set_length log (JS.length text)), (Buffer.from text).
      split_and!; [done | done |].
      rewrite from_ascii by done. done.
Qed.

(** X2.  [clearLog] on an alias that resolves leaves the file empty and
    the tracked length 0. *)
Theorem clearLog_empties (alias : string) (w : World)
    (i : nat) (log : LogFile.t) :
  find alias w = Some (i, log) →
  appendable h (fs w) (LogFile.path log) →
  let w' := after (clearLog h alias) w in
  returns (clearLog h alias) w ∧
  content h (fs w') (LogFile.path log) = Some EmptyString ∧
  find alias w' = Some (i, LogFile.set_length log 0) ∧
  stdout w' = stdout w ∧ pending w' = pending w.
Proof.
  intros Hfind Happ.
  destruct (writeFileSync_writes (fs w) (LogFile.path log) "" Happ)
    as (f' & Hf' & Hcontent).
  unfold returns, after. rewrite (clearLog_found _ _ _ _ Hfind).
  unfold_M. rewrite Hf'. simpl.
  pose proof (find_assign alias i log 0 (set_fs w f') Hfind) as Hfind'.
  split_and!; try done. by eexists.
Qed.

Lemma set_length_twice log a b :
  LogFile.set_length (LogFile.set_length log a) b = LogFile.set_length log b.
Proof. done. Qed.

Lemma writeFileSync_twice f f1 p d1 d2 :
  writeFileSync h f p (Some d1) = Ok f1 →
  writeFileSync h f1 p (Some d2) = writeFileSync h f p (Some d2).
Proof.
  unfold writeFileSync, open_write.
  destruct (names f !! resolve h p) as [ino|] eqn:Hname.
  - intros [= <-]. simpl. rewrite Hname. unfold set_inode. simpl.
    by rewrite insert_insert_eq.
  - destruct (creatable f (resolve h p)); [|done].
    intros [= <-]. simpl. rewrite lookup_insert_eq.
    unfold set_inode, create. simpl. by rewrite insert_insert_eq.
Qed.

Lemma writeLog_run alias text w i log f' :
  find alias w = Some (i, log) →
  writeFileSync h (fs w) (LogFile.path log) (Some text) = Ok f' →
  writeLog h alias text w =
    (Ok tt,
     set_logs (set_fs w f')
       (<[i := LogFile.set_length log (JS.length text)]> (logs w))).
Proof.
  intros Hfind Hf'. rewrite (writeLog_found _ _ _ _ _ Hfind).
  unfold_M. by rewrite Hf'.
Qed.

(** X3.  Of two [writeLog] in a row on the same alias only the second
    shows: the state is the one the second alone would have left. *)
Theorem writeLog_last_wins (alias text1 text2 : string) (w : World)
    (i : nat) (log : LogFile.t) :
  find alias w = Some (i, log) →
  appendable h (fs w) (LogFile.path log) →
  after (writeLog h alias text1;; writeLog h alias text2) w =
  after (writeLog h alias text2) w.
Proof.
  intros Hfind Happ.
  destruct (writeFileSync_writes (fs w) (LogFile.path log) text1 Happ)
    as (f1 & Hf1 & _).
  pose proof (writeFileSync_twice _ _ _ _ text2 Hf1) as Htwice.
  destruct (writeFileSync_writes (fs w) (LogFile.path log) text2 Happ)
    as (f2 & Hf2 & _).
  rewrite Hf2 in Htwice.
  assert (Hfind1 :
    find alias (set_logs (set_fs w f1)
                  (<[i := LogFile.set_length log (JS.length text1)]> (logs w)))
      = Some (i, LogFile.set_length log (JS.length text1)))
    by exact (find_assign alias i log _ (set_fs w f1) Hfind).
  unfold after, mbind, M_bind.
  rewrite (writeLog_run _ text1 _ _ _ _ Hfind Hf1).
  rewrite (writeLog_run _ text2 w _ _ _ Hfind Hf2).
  rewrite (writeLog_run _ text2 _ _ _ f2 Hfind1 Htwice).
  unfold set_logs, set_fs. simpl.
  by rewrite list_insert_insert_eq.
Qed.

End Writer.

Section Removing.
Variable h : Host.

(** X4.  [removeLog] on an alias whose file is there returns, takes the
    file's name away, leaves every other file as it is and takes the
    first descriptor of that alias, and only that one, out of the
    registry; when no other descriptor has the alias, the alias is not
    registered any more. *)
Theorem removeLog_removes (alias : string) (w : World)
    (i : nat) (log : LogFile.t) :
  find alias w = Some (i, log) →
  is_Some (content h (fs w) (LogFile.path log)) →
  let w' := after (removeLog h alias) w in
  returns (removeLog h alias) w ∧
  content h (fs w') (LogFile.path log) = None ∧
  (∀ q, resolve h q ≠ resolve h (LogFile.path log) →
        content h (fs w') q = content h (fs w) q) ∧
  logs w' = delete i (logs w) ∧
  (sole alias i w → ¬ registered alias w') ∧
  stdout w' = stdout w ∧ pending w' = pending w.
Proof.
  intros Hfind [body Hbody].
  unfold returns, after. rewrite (removeLog_found _ _ _ _ _ Hfind).
  unfold_M. unfold unlinkSync. unfold content in Hbody.
  destruct (names (fs w) !! resolve h (LogFile.path log)) as [ino|] eqn:Hname;
    [|done].
  simpl. split_and!; try done.
  - by eexists.
  - unfold content. simpl. by rewrite lookup_delete_eq.
  - intros q Hq. unfold content. simpl. by rewrite lookup_delete_ne.
  - intros Hsole (other & Hin & Halias). simpl in Hin.
    apply list_elem_of_lookup in Hin as [j Hj].
    destruct (decide (j < i)%nat) as [Hlt|Hge].
    + rewrite list_lookup_delete_lt in Hj by done.
      pose proof (Hsole _ _ Hj Halias). lia.
    + rewrite list_lookup_delete_ge in Hj by lia.
      pose proof (Hsole _ _ Hj Halias). lia.
Qed.

(** X5.  [removeLog] on an alias whose file is not there throws the
    error of [fs.unlinkSync] to the caller and changes nothing: the
    descriptor stays in the registry. *)
Theorem removeLog_without_file (alias : string) (w : World)
    (i : nat) (log : LogFile.t) :
  find alias w = Some (i, log) →
  content h (fs w) (LogFile.path log) = None →
  removeLog h alias w = (Throw (ENOENT (LogFile.path log)), w).
Proof.
  intros Hfind Hnone. rewrite (removeLog_found _ _ _ _ _ Hfind).
  unfold_M. unfold unlinkSync. unfold content in Hnone.
  by destruct (names (fs w) !! resolve h (LogFile.path log)).
Qed.

End Removing.

Section Registering.
Variable h : Host.

(** X6.  Whatever [addLog] is called with, an alias that resolved before
    the call resolves to the same descriptor after it: a second
    registration under an alias in use is never found. *)
Theorem addLog_keeps_resolution (file alias : string)
    (maxLength : option Z) (behaviour : option string) (w : World)
    (known : string) (i : nat) (log : LogFile.t) :
  find known w = Some (i, log) →
  find known (after (addLog h file alias maxLength behaviour) w)
    = Some (i, log).
Proof.
  intros Hfind.
  destruct (addLog_cases h file alias maxLength behaviour w)
    as [_ [Hsame | [length Hpush]]]; unfold find in *.
  - by rewrite Hsame.
  - rewrite Hpush. by apply list_find_app_l.
Qed.

(** X7.  [addLog] of an existing file under an alias that is not in use
    makes the alias resolve to the new descriptor, the last of the
    registry, whose tracked length is the size of the file; the file
    system is not touched. *)
Theorem addLog_registers (file alias : string)
    (maxLength : option Z) (behaviour : option string) (w : World)
    (body : string) :
  ¬ registered alias w →
  content h (fs w) (target h file) = Some body →
  let w' := after (addLog h file alias maxLength behaviour) w in
  find alias w' =
    Some (length (logs w),
          descriptor file alias (JS.length body) maxLength behaviour) ∧
  fs w' = fs w ∧ pending w' = pending w.
Proof.
  intros Hfresh%find_None Hbody. unfold after.
  rewrite (addLog_existing _ _ _ _ _ _ _ Hbody). simpl.
  split; [|done]. unfold find in *. simpl.
  rewrite list_find_app_r by done. simpl.
  rewrite decide_True by done. reflexivity.
Qed.

End Registering.

Section Tracking.
Variable h : Host.

(** What [appendLog] does to the descriptor it resolves: it leaves it as
    it is, or it adds the length of the text to its tracked length, and
    that only when the text fits or the behaviour is [split] or
    [continue]. *)
Lemma appendLog_tracked alias text w i log :
  find alias w = Some (i, log) →
  let w' := after (appendLog h alias text) w in
  logs w' = logs w ∨
  logs w' =
    <[i := LogFile.set_length log (LogFile.length log + JS.length text)]>
      (logs w) ∧
  (LogFile.length log + JS.length text ≤ LogFile.maxLength log ∨
   LogFile.behaviour log = "split" ∨ LogFile.behaviour log = "continue").
Proof.
  intros Hfind. unfold after. rewrite (appendLog_found _ _ _ _ _ _ Hfind).
  destruct (_ >? _) eqn:Hover.
  - unfold overflow. unfold_M.
    destruct (String.eqb _ "stop"); [by left|].
    destruct (String.eqb _ "rewrite"); [by left|].
    destruct (String.eqb_spec (LogFile.behaviour log) "split").
    { destruct (appendFileSync _ _ _ _); simpl; [right | by left]. eauto. }
    destruct (String.eqb_spec (LogFile.behaviour log) "continue").
    { destruct (appendFileSync _ _ _ _); simpl; [right | by left]. eauto. }
    by left.
  - unfold_M. destruct (appendFileSync _ _ _ _); simpl; [right | by left].
    split; [done|]. left.
    rewrite Z.gtb_ltb in Hover. apply Z.ltb_ge in Hover. lia.
Qed.

Lemma find_same_logs alias w w' :
  logs w' = logs w → find alias w' = find alias w.
Proof. unfold find. by intros ->. Qed.

Lemma find_assigned alias w w' i log n :
  find alias w = Some (i, log) →
  logs w' = <[i := LogFile.set_length log n]> (logs w) →
  find alias w' = Some (i, LogFile.set_length log n).
Proof.
  intros Hfind Hlogs.
  pose proof (find_assign alias i log n w Hfind) as Hassign.
  unfold find in *. simpl in Hassign. by rewrite Hlogs.
Qed.

(** X8.  Unless the behaviour is [split] or [continue], [appendLog]
    never takes the tracked length over the maximum: a descriptor that
    is within its maximum before the call is within it after the call,
    whatever the text. *)
Theorem appendLog_respects_maxLength (alias text : string) (w : World)
    (i : nat) (log : LogFile.t) :
  find alias w = Some (i, log) →
  LogFile.behaviour log ≠ "split" →
  LogFile.behaviour log ≠ "continue" →
  LogFile.length log ≤ LogFile.maxLength log →
  ∃ log', find alias (after (appendLog h alias text) w) = Some (i, log') ∧
          LogFile.maxLength log' = LogFile.maxLength log ∧
          LogFile.length log' ≤ LogFile.maxLength log'.
Proof.
  intros Hfind Hsplit Hcontinue Hwithin.
  destruct (appendLog_tracked alias text w i log Hfind)
    as [Hsame | [Hassign [Hfits | [? | ?]]]]; try done.
  - exists log. by rewrite (find_same_logs _ _ _ Hsame).
  - eexists. split; [by eapply find_assigned|]. done.
Qed.

(** X9.  [appendLog] never lowers a tracked length: the alias resolves
    to the same position afterwards, with a tracked length that is at
    least what it was.  So a log that has overflowed overflows on every
    later append of a text at least as long. *)
Theorem appendLog_never_shrinks (alias text : string) (w : World)
    (i : nat) (log : LogFile.t) :
  find alias w = Some (i, log) →
  ∃ log', find alias (after (appendLog h alias text) w) = Some (i, log') ∧
          LogFile.length log ≤ LogFile.length log' ∧
          LogFile.maxLength log' = LogFile.maxLength log.
Proof.
  intros Hfind.
  destruct (appendLog_tracked alias text w i log Hfind)
    as [Hsame | [Hassign _]].
  - exists log. by rewrite (find_same_logs _ _ _ Hsame).
  - eexists. split; [by eapply find_assigned|]. simpl.
    pose proof (JS_length_nonneg text). split; [lia | done].
Qed.

(** The three methods that write through a descriptor change at most the
    tracked length of the descriptor they resolve. *)
Lemma logs_after_writeLog alias text w :
  logs (after (writeLog h alias text) w) = logs w ∨
  ∃ i log n, find alias w = Some (i, log) ∧
    logs (after (writeLog h alias text) w)
      = <[i := LogFile.set_length log n]> (logs w).
Proof.
  unfold after, writeLog. unfold_M.
  destruct (find alias w) as [[i log]|] eqn:Hfind; [|by left].
  destruct (writeFileSync _ _ _ _); simpl; [right | by left]. eauto.
Qed.

Lemma logs_after_clearLog alias w :
  logs (after (clearLog h alias) w) = logs w ∨
  ∃ i log n, find alias w = Some (i, log) ∧
    logs (after (clearLog h alias) w)
      = <[i := LogFile.set_length log n]> (logs w).
Proof.
  unfold after, clearLog. unfold_M.
  destruct (find alias w) as [[i log]|] eqn:Hfind; [|by left].
  destruct (writeFileSync _ _ _ _); simpl; [right | by left]. eauto.
Qed.

Lemma logs_after_appendLog alias text w :
  logs (after (appendLog h alias text) w) = logs w ∨
  ∃ i log n, find alias w = Some (i, log) ∧
    logs (after (appendLog h alias text) w)
      = <[i := LogFile.set_length log n]> (logs w).
Proof.
  destruct (find alias w) as [[i log]|] eqn:Hfind.
  - destruct (appendLog_tracked alias text w i log Hfind)
      as [Hsame | [Hassign _]]; [by left | right]. eauto.
  - left. unfold after, appendLog. unfold_M. by rewrite Hfind.
Qed.

Lemma assign_keeps_others alias w i log n j (other : LogFile.t) :
  find alias w = Some (i, log) →
  logs w !! j = Some other →
  LogFile.alias other ≠ alias →
  <[i := LogFile.set_length log n]> (logs w) !! j = Some other.
Proof.
  intros [Hi Halias]%find_Some Hj Hother.
  rewrite list_lookup_insert_ne; [done|]. intros ->. congruence.
Qed.

(** X10.  [writeLog], [appendLog] and [clearLog] on one alias never
    change a descriptor that is registered under another alias, not even
    its tracked length. *)
Theorem other_aliases_untouched (alias text : string) (w : World)
    (j : nat) (other : LogFile.t) :
  logs w !! j = Some other →
  LogFile.alias other ≠ alias →
  logs (after (writeLog h alias text) w) !! j = Some other ∧
  logs (after (appendLog h alias text) w) !! j = Some other ∧
  logs (after (clearLog h alias) w) !! j = Some other.
Proof.
  intros Hj Hother. split_and!.
  - destruct (logs_after_writeLog alias text w)
      as [-> | (i & log & n & Hfind & ->)]; [done|].
    by eapply assign_keeps_others.
  - destruct (logs_after_appendLog alias text w)
      as [-> | (i & log & n & Hfind & ->)]; [done|].
    by eapply assign_keeps_others.
  - destruct (logs_after_clearLog alias w)
      as [-> | (i & log & n & Hfind & ->)]; [done|].
    by eapply assign_keeps_others.
Qed.

End Tracking.

Section Policies.
Variable h : Host.

Lemma content_appendable f p body :
  content h f p = Some body → appendable h f p.
Proof.
  unfold content, appendable. intros Hbody. left.
  destruct (names f !! resolve h p); [by eexists | done].
Qed.

(** An append that goes through to the log's own file. *)
Lemma append_run i log text w :
  appendable h (fs w) (LogFile.path log) →
  ∃ f',
    (fs_call (λ f, appendFileSync h f (LogFile.path log) text);;
     assign_length i log (LogFile.length log + JS.length text)) w =
      (Ok tt,
       set_logs (set_fs w f')
         (<[i := LogFile.set_length log
                   (LogFile.length log + JS.length text)]> (logs w))) ∧
    content h f' (LogFile.path log) =
      Some (default EmptyString (content h (fs w) (LogFile.path log))
            +:+ Buffer.from text).
Proof.
  intros Happ.
  destruct (appendFileSync_appends h (fs w) (LogFile.path log) text Happ)
    as (f' & Hf' & Hcontent).
  exists f'. split; [|done]. unfold_M. by rewrite Hf'.
Qed.

(** X11.  With behaviour [continue] the maximum is never enforced:
    whatever the tracked length and the text, [appendLog] puts the text,
    in UTF-8, at the end of the file and adds [text.length] to the
    tracked length. *)
Theorem continue_always_appends (alias text : string) (w : World)
    (i : nat) (log : LogFile.t) :
  find alias w = Some (i, log) →
  LogFile.behaviour log = "continue" →
  appendable h (fs w) (LogFile.path log) →
  let w' := after (appendLog h alias text) w in
  returns (appendLog h alias text) w ∧
  content h (fs w') (LogFile.path log) =
    Some (default EmptyString (content h (fs w) (LogFile.path log))
          +:+ Buffer.from text) ∧
  find alias w' =
    Some (i, LogFile.set_length log
               (LogFile.length log + JS.length text)) ∧
  tracked alias w' = Some (LogFile.length log + JS.length text) ∧
  stdout w' = stdout w ∧ pending w' = pending w.
Proof.
  intros Hfind Hb Happ.
  destruct (append_run i log text w Happ) as (f' & Hrun & Hcontent).
  assert (Heq : appendLog h alias text w =
    (Ok tt,
     set_logs (set_fs w f')
       (<[i := LogFile.set_length log
                 (LogFile.length log + JS.length text)]> (logs w)))).
  { rewrite (appendLog_found _ _ _ _ _ _ Hfind).
    destruct (_ >? _); [|done].
    unfold overflow. rewrite Hb. simpl. exact Hrun. }
  pose proof (find_assign alias i log
                (LogFile.length log + JS.length text) (set_fs w f') Hfind)
    as Hfound.
  unfold returns, after, tracked. rewrite Heq. cbn [fst snd].
  split_and!; try done; [by eexists|].
  change (find alias _) with
    (find alias (set_logs (set_fs w f')
       (<[i := LogFile.set_length log
                 (LogFile.length log + JS.length text)]>
          (logs (set_fs w f'))))).
  by rewrite Hfound.
Qed.

(** X12.  An overflowing [appendLog] on a [rewrite] log returns without
    having written anything: the file system, the registry and standard
    output are as before, and the only effect is one more pending
    rotation, for the text and for the number of bytes by which the
    tracked length and the text exceed the maximum. *)
Theorem rewrite_is_deferred (alias text : string) (w : World)
    (i : nat) (log : LogFile.t) :
  find alias w = Some (i, log) →
  LogFile.behaviour log = "rewrite" →
  LogFile.length log + JS.length text > LogFile.maxLength log →
  appendLog h alias text w =
    (Ok tt,
     set_pending w (pending w ++
       [ {| rot_path := LogFile.path log; rot_text := text;
            rot_toDelete := LogFile.length log + JS.length text
                              - LogFile.maxLength log |} ])).
Proof.
  intros Hfind Hb Hover. rewrite (appendLog_found _ _ _ _ _ _ Hfind).
  rewrite gtb_true by done. unfold overflow. by rewrite Hb.
Qed.

(** X13.  Unless the behaviour is [split] or [rewrite], [appendLog] of
    an ASCII text keeps the tracked length equal to the size of the
    file: if they agree before the call, they agree after it, whether
    the text was written or refused. *)
Theorem appendLog_keeps_in_sync (alias text : string) (w : World)
    (i : nat) (log : LogFile.t) :
  find alias w = Some (i, log) →
  LogFile.behaviour log ≠ "split" →
  LogFile.behaviour log ≠ "rewrite" →
  JS.is_ascii text = true →
  in_sync h alias w →
  in_sync h alias (after (appendLog h alias text) w).
Proof.
  intros Hfind Hsplit Hrewrite Hascii
    (i0 & log0 & body & Hfind0 & Hbody & Hlen).
  rewrite Hfind in Hfind0. injection Hfind0 as <- <-.
  pose proof (content_appendable _ _ _ Hbody) as Happ.
  destruct (append_run i log text w Happ) as (f' & Hrun & Hcontent).
  rewrite Hbody in Hcontent. simpl in Hcontent.
  rewrite from_ascii in Hcontent by done.
  assert (Hwritten : in_sync h alias
    (set_logs (set_fs w f')
       (<[i := LogFile.set_length log
                 (LogFile.length log + JS.length text)]> (logs w)))).
  { exists i, (LogFile.set_length log (LogFile.length log + JS.length text)),
      (body +:+ text). split_and!.
    - by apply (find_assign alias i log _ (set_fs w f')).
    - done.
    - simpl. rewrite JS_length_app. lia. }
  unfold after. rewrite (appendLog_found _ _ _ _ _ _ Hfind).
  destruct (_ >? _).
  - unfold overflow.
    destruct (String.eqb_spec (LogFile.behaviour log) "stop").
    { unfold_M. simpl. by exists i, log, body. }
    destruct (String.eqb_spec (LogFile.behaviour log) "rewrite"); [done|].
    destruct (String.eqb_spec (LogFile.behaviour log) "split"); [done|].
    destruct (String.eqb_spec (LogFile.behaviour log) "continue").
    { by rewrite Hrun. }
    unfold_M. simpl. by exists i, log, body.
  - by rewrite Hrun.
Qed.

End Policies.

(** * Further properties of the overflow policies *)

Section Siblings.

Lemma slice_but_last (s : string) (c : ascii) :
  JS.slice (s +:+ chr c) 0 (Some (-1)) = s.
Proof.
  unfold JS.slice, JS.length. simpl default. rewrite length_app. simpl.
  replace (Z.max (Z.of_nat (String.length s + 1) + -1) 0)
    with (Z.of_nat (String.length s)) by lia.
  rewrite Z.min_l by lia. rewrite Z.sub_0_r, Z.max_l by lia.
  rewrite Nat2Z.id. apply substring_prefix.
Qed.

Lemma slice_last (s : string) (c : ascii) :
  JS.slice (s +:+ chr c) (-1) None = chr c.
Proof.
  unfold JS.slice, JS.length. simpl default. rewrite length_app. simpl.
  replace (Z.of_nat (String.length s + 1) <? 0) with false
    by (symmetry; apply Z.ltb_ge; lia).
  replace (Z.max (Z.of_nat (String.length s + 1) + -1) 0)
    with (Z.of_nat (String.length s)) by lia.
  rewrite Z.min_l by lia.
  replace (Z.max _ 0) with 1 by lia.
  rewrite Nat2Z.id. apply (substring_suffix s (chr c)).
Qed.

(** X17.  For a log whose path has no dot, the split policy puts the
    index before the last character of the path, not at its end: the
    path [stem c] gives the sibling [stem index c]. *)
Theorem nextFilePath_without_dot (log : LogFile.t) (text : string)
    (stem : string) (c : ascii) :
  JS.last_index "." (LogFile.path log) = None →
  LogFile.path log = stem +:+ chr c →
  nextFilePath log text =
    stem +:+ JS.toString (fileIndex log text) +:+ chr c.
Proof.
  intros Hdot Hpath. unfold nextFilePath, JS.lastIndexOf.
  rewrite Hdot, Hpath. by rewrite slice_but_last, slice_last.
Qed.

End Siblings.

(** X17 on the path [log]. *)
Lemma nextFilePath_without_dot_witness :
  let log := LogFile.mk "log" "log" 8 10 "split" in
  (JS.last_index "." (LogFile.path log) = None ∧
   LogFile.path log = "lo" +:+ chr "g") ∧
  nextFilePath log "xyz" = "lo" +:+ JS.toString (fileIndex log "xyz") +:+ chr "g".
Proof.
  intros log.
  assert (H1 : JS.last_index "." (LogFile.path log) = None) by reflexivity.
  assert (H2 : LogFile.path log = "lo" +:+ chr "g") by reflexivity.
  split; [done|]. exact (nextFilePath_without_dot log "xyz" "lo" "g" H1 H2).
Defined.

Section Cleaning.
Variable h : Host.

(** X18.  When the rotation of an overflowing append has run, the
    temporary file is gone under its name, nothing has been printed and
    no rotation is pending. *)
Theorem rotation_cleans_up (alias text : string) (w : World)
    (i : nat) (log : LogFile.t) :
  find alias w = Some (i, log) →
  LogFile.behaviour log = "rewrite" →
  LogFile.length log + JS.length text > LogFile.maxLength log →
  pending w = [] →
  is_Some (content h (fs w) (LogFile.path log)) →
  resolve h (LogFile.path log +:+ ".temp") ≠ resolve h (LogFile.path log) →
  creatable (fs w) (resolve h (LogFile.path log)) = true →
  appendable h (fs w) (LogFile.path log +:+ ".temp") →
  let w' := after (appendLog h alias text;; serve h) w in
  returns (appendLog h alias text;; serve h) w ∧
  content h (fs w') (LogFile.path log +:+ ".temp") = None ∧
  stdout w' = stdout w ∧ pending w' = [].
Proof.
  intros Hfind Hb Hover Hpending [old Hold] Hne Hdir Htemp.
  set (r := {| rot_path := LogFile.path log; rot_text := text;
               rot_toDelete := LogFile.length log + JS.length text
                                 - LogFile.maxLength log |}).
  assert (Hrun : (appendLog h alias text;; serve h) w =
                 rotate h r (set_pending (set_pending w [r]) [])).
  { unfold appendLog, serve. unfold_M. rewrite Hfind, gtb_true by done.
    unfold overflow. rewrite Hb. simpl. unfold_M. simpl.
    by rewrite Hpending. }
  destruct (rotate_result h r (set_pending (set_pending w [r]) []) old
              Hold Hne Hdir Htemp)
    as (Hret & _ & Hgone & _ & Hout & Hq).
  simpl. unfold returns, after in *. by rewrite Hrun.
Qed.

End Cleaning.

Section SplitFrame.
Variable h : Host.

(** X20.  An overflowing append on a [split] log never writes to the
    log's own file: when the sibling is another file, the content of the
    log's file is what it was. *)
Theorem split_leaves_log_file (alias text : string) (w : World)
    (i : nat) (log : LogFile.t) (body : string) :
  find alias w = Some (i, log) →
  LogFile.behaviour log = "split" →
  LogFile.length log + JS.length text > LogFile.maxLength log →
  allocated (fs w) →
  content h (fs w) (LogFile.path log) = Some body →
  names (fs w) !! resolve h (nextFilePath log text)
    ≠ names (fs w) !! resolve h (LogFile.path log) →
  content h (fs (after (appendLog h alias text) w)) (LogFile.path log)
    = Some body.
Proof.
  intros Hfind Hb Hover Halloc Hbody Hother.
  unfold after. rewrite (appendLog_found _ _ _ _ _ _ Hfind).
  rewrite gtb_true by done. unfold overflow. rewrite Hb. simpl.
  unfold_M. unfold appendFileSync, open_write.
  unfold content in *.
  destruct (names (fs w) !! resolve h (LogFile.path log)) as [ino|] eqn:Hp;
    [|done].
  destruct (names (fs w) !! resolve h (nextFilePath log text))
    as [other|] eqn:Hq.
  - simpl. rewrite Hp. simpl in *. unfold inode_content in *. simpl.
    rewrite lookup_insert_ne; [done|]. congruence.
  - destruct (creatable (fs w) (resolve h (nextFilePath log text)));
      simpl; [|by rewrite Hp].
    rewrite lookup_insert_ne by (intros Heq; rewrite Heq in Hq; congruence).
    rewrite Hp. simpl in *. unfold inode_content in *. simpl.
    rewrite lookup_insert_ne; [done|].
    pose proof (Halloc _ _ Hp). lia.
Qed.

End SplitFrame.

(** * Properties of the formatter *)

Section Values.
Variable P : value → Prop.
Hypothesis HNull : P Null.
Hypothesis HUndefined : P Undefined.
Hypothesis HBool : ∀ b, P (Bool b).
Hypothesis HNum : ∀ n, P (Num n).
Hypothesis HBigInt : ∀ n, P (BigInt n).
Hypothesis HStr : ∀ s, P (Str s).
Hypothesis HFunc : ∀ name, P (Func name).
Hypothesis HSym : ∀ d, P (Sym d).
Hypothesis HArr : ∀ items, Forall P items → P (Arr items).
Hypothesis HObj : ∀ props, Forall (λ kv, P kv.2) props → P (Obj props).

(** Induction on a value, with the property for the parts of an array
    or an object. *)
Fixpoint value_ind (v : value) : P v :=
  match v with
  | Null => HNull
  | Undefined => HUndefined
  | Bool b => HBool b
  | Num n => HNum n
  | BigInt n => HBigInt n
  | Str s => HStr s
  | Func name => HFunc name
  | Sym d => HSym d
  | Arr items =>
      HArr items
        ((fix all (l : list value) : Forall P l :=
            match l with
            | [] => @List.Forall_nil _ P
            | x :: l' => @List.Forall_cons _ P x l' (value_ind x) (all l')
            end) items)
  | Obj props =>
      HObj props
        ((fix all (l : list (string * value))
            : Forall (λ kv, P kv.2) l :=
            match l with
            | [] => @List.Forall_nil _ (λ kv, P kv.2)
            | kv :: l' =>
                @List.Forall_cons _ (λ kv, P kv.2) kv l'
                  (value_ind kv.2) (all l')
            end) props)
  end.
End Values.

Section Formatter.

Lemma occurs_app c s t : occurs c (s +:+ t) = occurs c s || occurs c t.
Proof.
  induction s as [|a s IH]; [done|].
  rewrite app_cons. simpl. rewrite IH. by rewrite orb_assoc.
Qed.

Lemma occurs_join c sep l :
  occurs c sep = false →
  Forall (λ t, occurs c t = false) l →
  occurs c (JS.join sep l) = false.
Proof.
  intros Hsep Hl. induction Hl as [|t l Ht Hl IH]; [done|].
  destruct l as [|t' l]; [done|].
  rewrite join_cons by done. by rewrite !occurs_app, Ht, Hsep, IH.
Qed.

Lemma ends_with_app c s t : ends_with c t → ends_with c (s +:+ t).
Proof.
  intros [t' ->]. exists (s +:+ t'). by rewrite app_assoc_s.
Qed.

Lemma ends_with_end_ : ends_with LF end_.
Proof. by exists (chr ESC +:+ "[0m"). Qed.

(** The digits of a number hold no line feed. *)
Lemma occurs_LF_uint d : occurs LF (NilZero.string_of_uint d) = false.
Proof.
  unfold NilZero.string_of_uint.
  destruct d as [|d|d|d|d|d|d|d|d|d|d]; try done;
    simpl; induction d as [|d IH|d IH|d IH|d IH|d IH|d IH|d IH|d IH|d IH|d IH];
    done.
Qed.

Lemma occurs_LF_toString n : occurs LF (JS.toString n) = false.
Proof.
  unfold JS.toString, NilZero.string_of_int.
  destruct (Z.to_int n) as [d|d]; [apply occurs_LF_uint|].
  simpl. apply occurs_LF_uint.
Qed.

(** A quoted string holds no line feed: the line feed is escaped. *)
Lemma occurs_LF_quote_char c : occurs LF (JSON.quote_char c) = false.
Proof.
  destruct c as [[] [] [] [] [] [] [] []]; reflexivity.
Qed.

Lemma occurs_LF_quote s : occurs LF (JSON.quote s) = false.
Proof.
  unfold JSON.quote. rewrite !occurs_app.
  assert (occurs LF (JSON.quote_chars s) = false) as ->; [|done].
  induction s as [|c s IH]; [done|]. simpl.
  by rewrite occurs_app, occurs_LF_quote_char, IH.
Qed.


Lemma wrap_compact opening closing indent stepback partial :
  occurs LF opening = false → occurs LF closing = false →
  Forall (λ t, occurs LF t = false) partial →
  occurs LF (JSON.wrap opening closing "" indent stepback partial) = false.
Proof.
  intros Ho Hc Hl. unfold JSON.wrap.
  destruct partial as [|t l]; [by rewrite occurs_app, Ho, Hc|].
  simpl String.eqb. cbv iota.
  by rewrite !occurs_app, Ho, Hc, (occurs_join LF "," _ eq_refl Hl).
Qed.

(** Without a gap the text of a value holds no line feed. *)
Lemma serialize_compact v :
  ∀ indent out,
    JSON.serialize "" indent v = Some (Some out) → occurs LF out = false.
Proof.
  induction v as [| |b|n|n|s|name|d|items IH|props IH] using value_ind;
    intros indent out; try done.
  - intros [= <-]. done.
  - intros [= <-]. by destruct b.
  - intros [= <-]. apply occurs_LF_toString.
  - intros [= <-]. apply occurs_LF_quote.
  - simpl. set (indent' := indent +:+ ""). clearbody indent'.
    destruct ((fix elements (l : list value) : option (list string) := _)
                items) as [partial|] eqn:Hparts; [|done].
    intros [= <-]. apply wrap_compact; [done..|].
    clear indent. revert partial Hparts.
    induction IH as [|x l Hx Hl IHl]; intros partial.
    { intros [= <-]. constructor. }
    simpl. destruct (JSON.serialize "" indent' x) as [strP|] eqn:Hser;
      [|done]. simpl.
    destruct ((fix elements (l0 : list value) : option (list string) := _)
                l) as [rest|]; [|done].
    intros [= <-]. constructor; [|by apply IHl].
    destruct strP as [t|]; [by eapply Hx | done].
  - simpl. set (indent' := indent +:+ ""). clearbody indent'.
    destruct ((fix members (l : list (string * value))
                 : option (list string) := _) props)
      as [partial|] eqn:Hparts; [|done].
    intros [= <-]. apply wrap_compact; [done..|].
    clear indent. revert partial Hparts.
    induction IH as [|[k x] l Hx Hl IHl]; intros partial.
    { intros [= <-]. constructor. }
    simpl in *. destruct (JSON.serialize "" indent' x) as [strP|] eqn:Hser;
      [|done]. simpl.
    destruct ((fix members (l0 : list (string * value))
                 : option (list string) := _) l) as [rest|]; [|done].
    intros [= <-]. destruct strP as [t|]; [|by apply IHl].
    constructor; [|by apply IHl].
    rewrite !occurs_app, occurs_LF_quote. simpl. by eapply Hx.
Qed.

(** X14.  Whatever the value, what [format] returns ends with a line
    feed: [printf] always completes its line. *)
Theorem format_ends_line (any : value) (s : string) :
  format any = Some s → ends_with LF s.
Proof.
  destruct any as [| |b|n|n|t|name|d|items|props]; simpl;
    try (intros [= <-]; repeat apply ends_with_app;
         first [apply ends_with_end_ | by exists EmptyString]).
  - destruct (JSON.stringify (Arr items) None); [|done].
    intros [= <-]. by eexists.
  - destruct (JSON.stringify (Obj props) (Some 4%nat)); [|done].
    intros [= <-]. by eexists.
Qed.


(** X16.  An array is formatted on one line, whatever it holds: the
    text that [format] returns for it has a single line feed, its last
    character. *)
Theorem format_array_one_line (items : list value) (s : string) :
  format (Arr items) = Some s →
  ∃ line, s = line +:+ chr LF ∧ occurs LF line = false.
Proof.
  unfold format, JSON.stringify.
  destruct (JSON.serialize "" "" (Arr items)) as [[text|]|] eqn:Hser;
    simpl; intros [= <-].
  - exists text. split; [done|]. by eapply serialize_compact.
  - by exists "undefined".
Qed.

End Formatter.


(** X14 on a function. *)
Lemma format_ends_line_witness :
  format (Func "main") = Some ("[function " +:+ chr ESC +:+ "[34mmain" +:+ end_) ∧
  ends_with LF ("[function " +:+ chr ESC +:+ "[34mmain" +:+ end_).
Proof.
  assert (H : format (Func "main")
              = Some ("[function " +:+ chr ESC +:+ "[34mmain" +:+ end_))
    by reflexivity.
  split; [exact H | exact (format_ends_line _ _ H)].
Defined.

(** X16 on an array with a string of two lines and an object in it. *)
Lemma format_array_one_line_witness :
  let items := [Num 1; Str (lines ["a"; "b"]); Obj [("k", Null)]; Undefined] in
  let s := "[1," +:+ chr DQ +:+ "a\nb\n" +:+ chr DQ +:+ ",{"
             +:+ chr DQ +:+ "k" +:+ chr DQ +:+ ":null},null]" +:+ chr LF in
  format (Arr items) = Some s ∧
  ∃ line, s = line +:+ chr LF ∧ occurs LF line = false.
Proof.
  intros items s.
  assert (H : format (Arr items) = Some s) by (vm_compute; reflexivity).
  split; [exact H | exact (format_array_one_line items s H)].
Defined.

(** An object is laid out over several lines, four spaces a level, and
    a property without a JSON text is left out. *)
Example format_object :
  format (Obj [("message", Str "Hello World!"); ("log", Func "f");
               ("codes", Arr [Num 1; Num 2])]) =
  Some (JS.join (chr LF)
    [ "{";
      "    " +:+ chr DQ +:+ "message" +:+ chr DQ +:+ ": "
             +:+ chr DQ +:+ "Hello World!" +:+ chr DQ +:+ ",";
      "    " +:+ chr DQ +:+ "codes" +:+ chr DQ +:+ ": [";
      "        1,";
      "        2";
      "    ]";
      "}"; "" ]).
Proof. vm_compute. reflexivity. Qed.

(** * The further properties at work *)

Lemma allocated_disk files : allocated (disk files).
Proof.
  induction files as [|[p c] rest IH]; intros q ino; simpl.
  - by rewrite lookup_empty.
  - rewrite lookup_insert. destruct (decide (p = q)) as [->|Hne].
    + intros [= <-]. lia.
    + intros Hq. pose proof (IH _ _ Hq). lia.
Qed.

(** X1 on a [stop] log of three bytes with a maximum of two: eleven
    bytes are written all the same. *)
Lemma writeLog_overwrites_witness :
  let h := windows false in
  let w := one_log "stop" "abc" 2 in
  let log := LogFile.mk "app.log" "app" 3 2 "stop" in
  let w' := after (writeLog h "app" "hello world") w in
  (find "app" w = Some (0%nat, log) ∧
   appendable h (fs w) (LogFile.path log)) ∧
  content h (fs w') "app.log" = Some "hello world" ∧
  find "app" w' = Some (0%nat, LogFile.mk "app.log" "app" 11 2 "stop") ∧
  size h w' "app.log" = Some 11 ∧
  tracked "app" w' = Some 11 ∧
  in_sync h "app" w'.
Proof.
  intros h w log w'.
  assert (H1 : find "app" w = Some (0%nat, log)) by reflexivity.
  assert (H2 : appendable h (fs w) (LogFile.path log))
    by (left; eexists; reflexivity).
  split; [done|].
  destruct (writeLog_overwrites h "app" "hello world" w 0 log H1 H2)
    as (_ & Hc & Hf & Hs & Ht & Hsync & _).
  split_and!; [exact Hc | exact Hf | exact Hs | exact Ht |].
  apply Hsync. reflexivity.
Defined.

(** [writeLog] of the one character U+00E9 on the same log: two bytes
    in the file, a tracked length of one. *)
Example writeLog_e_acute :
  let h := windows false in
  let w' := after (writeLog h "app" e_acute) (one_log "stop" "abc" 2) in
  content h (fs w') "app.log" = Some (String "195" (chr "169")) ∧
  size h w' "app.log" = Some 2 ∧
  tracked "app" w' = Some 1.
Proof. split_and!; reflexivity. Qed.

(** X2 on the same log. *)
Lemma clearLog_empties_witness :
  let h := windows false in
  let w := one_log "stop" "abc" 2 in
  let log := LogFile.mk "app.log" "app" 3 2 "stop" in
  let w' := after (clearLog h "app") w in
  (find "app" w = Some (0%nat, log) ∧
   appendable h (fs w) (LogFile.path log)) ∧
  content h (fs w') "app.log" = Some EmptyString ∧
  find "app" w' = Some (0%nat, LogFile.mk "app.log" "app" 0 2 "stop").
Proof.
  intros h w log w'.
  assert (H1 : find "app" w = Some (0%nat, log)) by reflexivity.
  assert (H2 : appendable h (fs w) (LogFile.path log))
    by (left; eexists; reflexivity).
  split; [done|].
  destruct (clearLog_empties h "app" w 0 log H1 H2) as (_ & Hc & Hf & _).
  split; [exact Hc | exact Hf].
Defined.

(** X3 on a log whose file is yet to be created. *)
Lemma writeLog_last_wins_witness :
  let h := windows false in
  let log := LogFile.mk "new.log" "new" 0 10 "stop" in
  let w := set_logs (boot (disk [])) [log] in
  (find "new" w = Some (0%nat, log) ∧
   appendable h (fs w) (LogFile.path log)) ∧
  after (writeLog h "new" "first";; writeLog h "new" "second") w =
  after (writeLog h "new" "second") w.
Proof.
  intros h log w.
  assert (H1 : find "new" w = Some (0%nat, log)) by reflexivity.
  assert (H2 : appendable h (fs w) (LogFile.path log))
    by (right; reflexivity).
  split; [done|].
  exact (writeLog_last_wins h "new" "first" "second" w 0 log H1 H2).
Defined.

(** X4 on a registry with one log. *)
Lemma removeLog_removes_witness :
  let h := windows false in
  let w := one_log "stop" "abc" 10 in
  let log := LogFile.mk "app.log" "app" 3 10 "stop" in
  let w' := after (removeLog h "app") w in
  (find "app" w = Some (0%nat, log) ∧
   is_Some (content h (fs w) (LogFile.path log)) ∧
   sole "app" 0 w) ∧
  content h (fs w') "app.log" = None ∧ logs w' = [] ∧
  ¬ registered "app" w'.
Proof.
  intros h w log w'.
  assert (H1 : find "app" w = Some (0%nat, log)) by reflexivity.
  assert (H2 : is_Some (content h (fs w) (LogFile.path log)))
    by (eexists; reflexivity).
  assert (H3 : sole "app" 0 w).
  { intros [|j] other Hj _; [done|]. simpl in Hj. done. }
  split; [done|].
  destruct (removeLog_removes h "app" w 0 log H1 H2)
    as (_ & Hgone & _ & Hlogs & Hsole & _).
  split_and!; [exact Hgone | exact Hlogs | exact (Hsole H3)].
Defined.

(** X5 on a log whose file has been deleted. *)
Lemma removeLog_without_file_witness :
  let h := windows false in
  let log := LogFile.mk "gone.log" "gone" 3 10 "stop" in
  let w := set_logs (boot (disk [])) [log] in
  (find "gone" w = Some (0%nat, log) ∧
   content h (fs w) (LogFile.path log) = None) ∧
  removeLog h "gone" w = (Throw (ENOENT "gone.log"), w).
Proof.
  intros h log w.
  assert (H1 : find "gone" w = Some (0%nat, log)) by reflexivity.
  assert (H2 : content h (fs w) (LogFile.path log) = None) by reflexivity.
  split; [done|]. exact (removeLog_without_file h "gone" w 0 log H1 H2).
Defined.

(** X6: the alias [app] is registered a second time. *)
Lemma addLog_keeps_resolution_witness :
  let h := windows false in
  let w := one_log "stop" "abc" 10 in
  let log := LogFile.mk "app.log" "app" 3 10 "stop" in
  let w' := after (addLog h "app.log" "app" (Some 99) (Some "continue")) w in
  find "app" w = Some (0%nat, log) ∧
  find "app" w' = Some (0%nat, log) ∧
  length (logs w') = 2%nat.
Proof.
  intros h w log w'.
  assert (H1 : find "app" w = Some (0%nat, log)) by reflexivity.
  split; [done|]. split; [|reflexivity].
  exact (addLog_keeps_resolution h "app.log" "app" (Some 99)
           (Some "continue") w "app" 0 log H1).
Defined.

(** X7 on a file of three bytes. *)
Lemma addLog_registers_witness :
  let h := windows false in
  let w := boot (disk [("C:\app\log.txt", "abc")]) in
  let w' := after (addLog h "log.txt" "log" None None) w in
  (¬ registered "log" w ∧
   content h (fs w) (target h "log.txt") = Some "abc") ∧
  find "log" w' = Some (0%nat, LogFile.mk "log.txt" "log" 3 5000 "stop").
Proof.
  intros h w w'.
  assert (H1 : ¬ registered "log" w).
  { intros (log & Hin & _). simpl in Hin. by apply elem_of_nil in Hin. }
  assert (H2 : content h (fs w) (target h "log.txt") = Some "abc")
    by (vm_compute; reflexivity).
  split; [done|].
  exact (proj1 (addLog_registers h "log.txt" "log" None None w "abc" H1 H2)).
Defined.

(** X8 on a full [stop] log. *)
Lemma appendLog_respects_maxLength_witness :
  let h := windows false in
  let w := one_log "stop" "0123456789" 10 in
  let log := LogFile.mk "app.log" "app" 10 10 "stop" in
  (find "app" w = Some (0%nat, log) ∧
   LogFile.behaviour log ≠ "split" ∧ LogFile.behaviour log ≠ "continue" ∧
   LogFile.length log ≤ LogFile.maxLength log) ∧
  ∃ log', find "app" (after (appendLog h "app" "x") w) = Some (0%nat, log') ∧
          LogFile.maxLength log' = LogFile.maxLength log ∧
          LogFile.length log' ≤ LogFile.maxLength log'.
Proof.
  intros h w log.
  assert (H1 : find "app" w = Some (0%nat, log)) by reflexivity.
  assert (H2 : LogFile.behaviour log ≠ "split") by discriminate.
  assert (H3 : LogFile.behaviour log ≠ "continue") by discriminate.
  assert (H4 : LogFile.length log ≤ LogFile.maxLength log) by (simpl; lia).
  split; [done|].
  exact (appendLog_respects_maxLength h "app" "x" w 0 log H1 H2 H3 H4).
Defined.

(** X9 on a [split] log that overflows. *)
Lemma appendLog_never_shrinks_witness :
  let h := windows false in
  let w := one_log "split" "12345678" 10 in
  let log := LogFile.mk "app.log" "app" 8 10 "split" in
  find "app" w = Some (0%nat, log) ∧
  ∃ log', find "app" (after (appendLog h "app" "xyz") w) = Some (0%nat, log') ∧
          LogFile.length log ≤ LogFile.length log' ∧
          LogFile.maxLength log' = LogFile.maxLength log.
Proof.
  intros h w log.
  assert (H1 : find "app" w = Some (0%nat, log)) by reflexivity.
  split; [done|].
  exact (appendLog_never_shrinks h "app" "xyz" w 0 log H1).
Defined.

(** X10 on a registry with two logs. *)
Lemma other_aliases_untouched_witness :
  let h := windows false in
  let app := LogFile.mk "app.log" "app" 3 10 "continue" in
  let audit := LogFile.mk "audit.log" "audit" 6 10 "stop" in
  let w := set_logs (boot (disk [("C:\app\app.log", "abc");
                                 ("C:\app\audit.log", "secret")]))
             [app; audit] in
  (logs w !! 1%nat = Some audit ∧ LogFile.alias audit ≠ "app") ∧
  logs (after (writeLog h "app" "0123456789abcdef") w) !! 1%nat = Some audit ∧
  logs (after (appendLog h "app" "0123456789abcdef") w) !! 1%nat = Some audit ∧
  logs (after (clearLog h "app") w) !! 1%nat = Some audit.
Proof.
  intros h app audit w.
  assert (H1 : logs w !! 1%nat = Some audit) by reflexivity.
  assert (H2 : LogFile.alias audit ≠ "app") by discriminate.
  split; [done|].
  exact (other_aliases_untouched h "app" "0123456789abcdef" w 1 audit H1 H2).
Defined.

(** X11 on a [continue] log that is full. *)
Lemma continue_always_appends_witness :
  let h := windows false in
  let w := one_log "continue" "0123456789" 10 in
  let log := LogFile.mk "app.log" "app" 10 10 "continue" in
  let w' := after (appendLog h "app" "more") w in
  (find "app" w = Some (0%nat, log) ∧
   LogFile.behaviour log = "continue" ∧
   appendable h (fs w) (LogFile.path log)) ∧
  content h (fs w') "app.log" = Some "0123456789more" ∧
  find "app" w' =
    Some (0%nat, LogFile.mk "app.log" "app" 14 10 "continue") ∧
  tracked "app" w' = Some 14.
Proof.
  intros h w log w'.
  assert (H1 : find "app" w = Some (0%nat, log)) by reflexivity.
  assert (H2 : LogFile.behaviour log = "continue") by reflexivity.
  assert (H3 : appendable h (fs w) (LogFile.path log))
    by (left; eexists; reflexivity).
  split; [done|].
  destruct (continue_always_appends h "app" "more" w 0 log H1 H2 H3)
    as (_ & Hc & Hf & Ht & _).
  split_and!; [exact Hc | exact Hf | exact Ht].
Defined.

(** X12 on a [rewrite] log of eight bytes out of ten. *)
Lemma rewrite_is_deferred_witness :
  let h := windows false in
  let w := one_log "rewrite" "12345678" 10 in
  let log := LogFile.mk "app.log" "app" 8 10 "rewrite" in
  (find "app" w = Some (0%nat, log) ∧
   LogFile.behaviour log = "rewrite" ∧
   LogFile.length log + JS.length "xyz" > LogFile.maxLength log) ∧
  appendLog h "app" "xyz" w =
    (Ok tt,
     set_pending w (pending w ++
       [ {| rot_path := LogFile.path log; rot_text := "xyz";
            rot_toDelete := LogFile.length log + JS.length "xyz"
                              - LogFile.maxLength log |} ])).
Proof.
  intros h w log.
  assert (H1 : find "app" w = Some (0%nat, log)) by reflexivity.
  assert (H2 : LogFile.behaviour log = "rewrite") by reflexivity.
  assert (H3 : LogFile.length log + JS.length "xyz" > LogFile.maxLength log)
    by (vm_compute; reflexivity).
  split; [done|].
  exact (rewrite_is_deferred h "app" "xyz" w 0 log H1 H2 H3).
Defined.

(** X13 on a [stop] log with room for the text. *)
Lemma appendLog_keeps_in_sync_witness :
  let h := windows false in
  let w := one_log "stop" "abc" 10 in
  let log := LogFile.mk "app.log" "app" 3 10 "stop" in
  (find "app" w = Some (0%nat, log) ∧
   LogFile.behaviour log ≠ "split" ∧ LogFile.behaviour log ≠ "rewrite" ∧
   JS.is_ascii "de" = true ∧
   in_sync h "app" w) ∧
  in_sync h "app" (after (appendLog h "app" "de") w).
Proof.
  intros h w log.
  assert (H1 : find "app" w = Some (0%nat, log)) by reflexivity.
  assert (H2 : LogFile.behaviour log ≠ "split") by discriminate.
  assert (H3 : LogFile.behaviour log ≠ "rewrite") by discriminate.
  assert (H4 : JS.is_ascii "de" = true) by reflexivity.
  assert (H5 : in_sync h "app" w).
  { exists 0%nat, log, "abc". split_and!; reflexivity. }
  split; [done|].
  exact (appendLog_keeps_in_sync h "app" "de" w 0 log H1 H2 H3 H4 H5).
Defined.

(** Text that is not ASCII takes a log out of step: the same log gets
    the one character U+00E9, and the file then has five bytes for a
    tracked length of four. *)
Example appendLog_out_of_sync :
  let h := windows false in
  let w := one_log "stop" "abc" 10 in
  let w' := after (appendLog h "app" e_acute) w in
  in_sync h "app" w ∧
  size h w' "app.log" = Some 5 ∧ tracked "app" w' = Some 4 ∧
  ¬ in_sync h "app" w'.
Proof.
  intros h w w'. split_and!; try reflexivity.
  - exists 0%nat, (LogFile.mk "app.log" "app" 3 10 "stop"), "abc".
    split_and!; reflexivity.
  - intros (i & log & body & Hfind & Hbody & Hlen).
    vm_compute in Hfind. injection Hfind as <- <-.
    vm_compute in Hbody. injection Hbody as <-. vm_compute in Hlen.
    discriminate.
Qed.

(** X18 on a [rewrite] log of eight bytes out of ten. *)
Lemma rotation_cleans_up_witness :
  let h := windows false in
  let w := one_log "rewrite" (lines ["1234"; "ab"]) 10 in
  let log := LogFile.mk "app.log" "app" 8 10 "rewrite" in
  let w' := after (appendLog h "app" (lines ["xyz"]);; serve h) w in
  content h (fs w') "app.log.temp" = None ∧
  stdout w' = stdout w ∧ pending w' = [].
Proof.
  intros h w log w'.
  destruct (rotation_cleans_up h "app" (lines ["xyz"]) w 0 log)
    as (_ & Hgone & Hout & Hq).
  - reflexivity.
  - reflexivity.
  - vm_compute. reflexivity.
  - reflexivity.
  - eexists. reflexivity.
  - vm_compute. discriminate.
  - reflexivity.
  - right. reflexivity.
  - split_and!; [exact Hgone | exact Hout | exact Hq].
Defined.

(** X20 on a [split] log whose sibling does not exist yet. *)
Lemma split_leaves_log_file_witness :
  let h := windows false in
  let w := one_log "split" "12345678" 10 in
  let log := LogFile.mk "app.log" "app" 8 10 "split" in
  (find "app" w = Some (0%nat, log) ∧
   LogFile.behaviour log = "split" ∧
   LogFile.length log + JS.length "xyz" > LogFile.maxLength log ∧
   content h (fs w) (LogFile.path log) = Some "12345678") ∧
  content h (fs (after (appendLog h "app" "xyz") w)) (LogFile.path log)
    = Some "12345678".
Proof.
  intros h w log.
  assert (H1 : find "app" w = Some (0%nat, log)) by reflexivity.
  assert (H2 : LogFile.behaviour log = "split") by reflexivity.
  assert (H3 : LogFile.length log + JS.length "xyz" > LogFile.maxLength log)
    by (vm_compute; reflexivity).
  assert (H4 : allocated (fs w)) by apply allocated_disk.
  assert (H5 : content h (fs w) (LogFile.path log) = Some "12345678")
    by reflexivity.
  assert (H6 : names (fs w) !! resolve h (nextFilePath log "xyz")
               ≠ names (fs w) !! resolve h (LogFile.path log))
    by (vm_compute; discriminate).
  split; [done|].
  exact (split_leaves_log_file h "app" "xyz" w 0 log "12345678"
           H1 H2 H3 H4 H5 H6).
Defined.
